(** * videochat-ai backend: a shallow embedding of [Backend/main.py]

    The backend ingests a video transcript, splits it into overlapping word
    windows, stores one point per window in a Qdrant collection and answers
    questions from the windows retrieved for one video.  This file embeds
    the helper functions ([extract_video_id], [chunk_text],
    [create_collection_if_not_exists]) and the three endpoints
    ([process_video], [ask_question], [delete_video]) and proves the
    properties the specification states about them. *)

From Stdlib Require Import ZArith List String Ascii DecimalString Lia.
From stdpp Require Import base option list gmap.

Local Open Scope Z_scope.

(** ** Python values *)

Module Py.

(** A Python [str] is a sequence of Unicode code points. *)
Abbreviation str := (list N).

(** String literals of the source, one code point per character. *)
Definition lit (s : string) : str :=
  List.map N_of_ascii (list_ascii_of_string s).

(** Exceptions raised by builtins and by the client libraries, with the
    message [str(e)] returns. *)
Inductive pyexn :=
  | ValueError (msg : str)
  | OtherException (msg : str).

Definition exn_str (e : pyexn) : str :=
  match e with
  | ValueError m => m
  | OtherException m => m
  end.

(** Outcome of a call: a value, or a raised exception. *)
Inductive result (E A : Type) :=
  | Ok (a : A)
  | Raise (e : E).
Arguments Ok {E A} a.
Arguments Raise {E A} e.

(** [str.isspace] on one code point: the table CPython uses for
    [str.split()] and [str.strip()] without arguments. *)
Definition isspace (c : N) : bool :=
  ((9 <=? c) && (c <=? 13) || (28 <=? c) && (c <=? 32)
   || (c =? 133) || (c =? 160) || (c =? 5760)
   || (8192 <=? c) && (c <=? 8202)
   || (c =? 8232) || (c =? 8233) || (c =? 8239) || (c =? 8287)
   || (c =? 12288))%N.

(** [text.split()]: maximal runs of non-whitespace code points.  [cur] is
    the word being read. *)
Fixpoint split_from (cur : str) (s : str) : list str :=
  match s with
  | [] => match cur with [] => [] | _ => [cur] end
  | c :: s' =>
      if isspace c
      then match cur with
           | [] => split_from [] s'
           | _ => cur :: split_from [] s'
           end
      else split_from (cur ++ [c]) s'
  end.

Definition split (s : str) : list str := split_from [] s.

(** [sep.join(parts)] *)
Fixpoint join (sep : str) (parts : list str) : str :=
  match parts with
  | [] => []
  | [p] => p
  | p :: ps => p ++ sep ++ join sep ps
  end.

(** [text.strip()] is empty exactly when every code point is whitespace. *)
Definition strip_is_empty (s : str) : bool := forallb isspace s.

(** Truth value of a [str] and of a list. *)
Definition truthy {A} (l : list A) : bool :=
  match l with [] => false | _ => true end.

(** [len(l)] *)
Definition len {A} (l : list A) : Z := Z.of_nat (length l).

(** Index adjustment of a slice bound (step 1): a negative bound counts
    from the end, and both are clamped to [0, len]. *)
Definition adjust_index (n i : Z) : Z :=
  if i <? 0 then Z.max (i + n) 0 else Z.min i n.

(** [l[start:stop]] *)
Definition slice {A} (l : list A) (start stop : Z) : list A :=
  let a := adjust_index (len l) start in
  let b := adjust_index (len l) stop in
  take (Z.to_nat (b - a)) (drop (Z.to_nat a) l).

(** [len(range(start, stop, step))] for a non-zero step. *)
Definition range_len (start stop step : Z) : Z :=
  if 0 <? step
  then (if start <? stop then (stop - start - 1) / step + 1 else 0)
  else (if stop <? start then (start - stop - 1) / (- step) + 1 else 0).

(** [range(start, stop, step)]; a zero step raises. *)
Definition range (start stop step : Z) : result pyexn (list Z) :=
  if step =? 0
  then Raise (ValueError (lit "range() arg 3 must not be zero"))
  else Ok (List.map (fun k => start + Z.of_nat k * step)
             (seq 0 (Z.to_nat (range_len start stop step)))).

(** [zip(xs, ys)] stops at the shorter list. *)
Fixpoint zip {A B} (xs : list A) (ys : list B) : list (A * B) :=
  match xs, ys with
  | x :: xs', y :: ys' => (x, y) :: zip xs' ys'
  | _, _ => []
  end.

(** [enumerate(xs)], counting from [k]. *)
Fixpoint enumerate_from {A} (k : Z) (xs : list A) : list (Z * A) :=
  match xs with
  | [] => []
  | x :: xs' => (k, x) :: enumerate_from (k + 1) xs'
  end.

Definition enumerate {A} (xs : list A) : list (Z * A) := enumerate_from 0 xs.

End Py.

Import Py.

(** ** The chunker *)

Record Chunk := { text : str; start_idx : Z }.

(** One iteration of the loop of [chunk_text]. *)
Definition chunk_step (words : list str) (chunk_size : Z)
    (chunks : list Chunk) (i : Z) : list Chunk :=
  let chunk := join (lit " ") (slice words i (i + chunk_size)) in
  if truthy chunk
  then chunks ++ [ {| text := chunk; start_idx := i |} ]
  else chunks.

Definition chunk_text (text : str) (chunk_size overlap : Z)
    : result pyexn (list Chunk) :=
  let words := split text in
  match range 0 (len words) (chunk_size - overlap) with
  | Raise e => Raise e
  | Ok positions => Ok (foldl (chunk_step words chunk_size) [] positions)
  end.

(** Default arguments of [chunk_text]. *)
Definition default_chunk_size : Z := 500.
Definition default_overlap : Z := 100.

(** The chunk the loop builds at offset [i], and whether it is kept. *)
Definition chunk_at (words : list str) (chunk_size i : Z) : Chunk :=
  {| text := join (lit " ") (slice words i (i + chunk_size)); start_idx := i |}.

Definition kept (words : list str) (chunk_size i : Z) : bool :=
  truthy (text (chunk_at words chunk_size i)).

(** The words a chunk starting at [start] is cut from:
    [chunk_size] words, fewer at the end of the text. *)
Definition window (words : list str) (chunk_size start : Z) : list str :=
  take (Z.to_nat chunk_size) (drop (Z.to_nat start) words).

(** [ceil(a / b)] on integers, for a positive divisor. *)
Definition ceil_div (a b : Z) : Z := (a + b - 1) / b.

(** The chunk count as the specification writes it, for [n] words:
    [ceil(max(n - overlap, 0) / (chunk_size - overlap))]. *)
Definition spec_chunk_count (n chunk_size overlap : Z) : Z :=
  ceil_div (Z.max (n - overlap) 0) (chunk_size - overlap).

Definition mk_chunk (s : string) (i : Z) : Chunk :=
  {| text := lit s; start_idx := i |}.

(** A word: a non-empty run of code points without whitespace. *)
Definition is_word (w : str) : Prop :=
  w ≠ [] ∧ Forall (fun c => isspace c = false) w.

(** ** The video identifier resolver *)

(** The one regular expression of [extract_video_id] has the shape
    [(?:p1|p2|p3)([^...]+)]: literal alternatives followed by a greedy,
    non-empty run of code points outside an excluded set. *)
Record pattern := { alternatives : list str; excluded : list N }.

Definition youtube_pattern : pattern :=
  {| alternatives := [ lit "youtube.com/watch?v=";
                       lit "youtu.be/";
                       lit "youtube.com/embed/" ];
     excluded := [ 38; 10; 63; 35 ]%N |}.   (* & \n ? # *)

Definition patterns : list pattern := [ youtube_pattern ].

Fixpoint strip_prefix (p s : str) : option str :=
  match p, s with
  | [], _ => Some s
  | a :: p', b :: s' => if (a =? b)%N then strip_prefix p' s' else None
  | _ :: _, [] => None
  end.

Definition in_class (pat : pattern) (c : N) : bool :=
  negb (existsb (N.eqb c) (excluded pat)).

(** The greedy run captured by group 1. *)
Fixpoint take_class (pat : pattern) (s : str) : str :=
  match s with
  | c :: s' => if in_class pat c then c :: take_class pat s' else []
  | [] => []
  end.

(** Match at the start of [s]: the alternatives in order; the group needs
    at least one code point. *)
Fixpoint match_here (pat : pattern) (alts : list str) (s : str) : option str :=
  match alts with
  | [] => None
  | p :: alts' =>
      match strip_prefix p s with
      | Some rest =>
          match take_class pat rest with
          | [] => match_here pat alts' s
          | g => Some g
          end
      | None => match_here pat alts' s
      end
  end.

(** [re.search(pattern, s)], returning [match.group(1)]: the leftmost
    position at which the pattern matches. *)
Fixpoint re_search (pat : pattern) (s : str) : option str :=
  match match_here pat (alternatives pat) s with
  | Some g => Some g
  | None => match s with
            | [] => None
            | _ :: s' => re_search pat s'
            end
  end.

Fixpoint first_match (pats : list pattern) (url : str) : option str :=
  match pats with
  | [] => None
  | pat :: pats' =>
      match re_search pat url with
      | Some g => Some g
      | None => first_match pats' url
      end
  end.

Definition extract_video_id (url : str) : result pyexn str :=
  match first_match patterns url with
  | Some g => Ok g
  | None => Raise (ValueError (lit "Invalid YouTube URL"))
  end.

(** ** Requests, responses and stored points *)

Module VideoRequest.
Record t := { video_url : str }.
End VideoRequest.

Module QuestionRequest.
Record t := { video_url : str; question : str }.
End QuestionRequest.

Module AnswerResponse.
Record t := { answer : str; relevant_chunks : list str }.
End AnswerResponse.

(** The dictionary [process_video] returns. *)
Module ProcessResponse.
Record t := { message : str; video_id : str;
              chunks_created : Z; transcript_length : Z }.
End ProcessResponse.

(** The payload dictionary of a stored point. *)
Module Payload.
Record t := { video_id : str; text : str; chunk_index : Z; video_url : str }.
End Payload.

(** One message of a chat completion request. *)
Module ChatMessage.
Record t := { role : str; content : str }.
End ChatMessage.

(** The arguments of [groq_client.chat.completions.create]; the
    temperature is kept as the decimal fraction written in the source. *)
Module ChatRequest.
Record t := { messages : list ChatMessage.t; model : str;
              temperature_tenths : Z; max_tokens : Z }.
End ChatRequest.

(** What an endpoint body can raise: a Python exception or FastAPI's
    [HTTPException]. *)
Inductive exn :=
  | PyExn (e : pyexn)
  | HTTPException (status_code : Z) (detail : str).

(** The requests the service receives. *)
Inductive request :=
  | ProcessVideo (r : VideoRequest.t)
  | AskQuestion (r : QuestionRequest.t)
  | DeleteVideo (video_id : str).

Definition COLLECTION_NAME : str := lit "video_transcripts".
Definition VECTOR_SIZE : Z := 384.

Section Backend.

(** *** Collaborators

    The embedding model, the similarity order of the vector index, the
    identifier generator, the transcript service and the completion
    service are outside the repository; the endpoints are embedded over
    them. *)

(** An embedding vector ([embedding.tolist()]). *)
Context {Vector : Type}.

(** [embedding_model.embed([t])[0]]; a batch is embedded text by text. *)
Variable embed : str -> Vector.

(** [closer q v1 v2]: [v1] scores at least as high as [v2] against the
    query [q] (cosine similarity). *)
Variable closer : Vector -> Vector -> Vector -> bool.

(** The value of the [k]-th call of [uuid.uuid4()], as a string. *)
Variable uuid4 : nat -> str.

(** [ytt_api.fetch(video_id, languages=...).to_raw_data()], as the list
    of the items' texts, and what the alternative path's
    [ytt_api.list(video_id).find_transcript(...).fetch()] returns, as the
    texts of its snippet objects. *)
Variable yt_fetch : str -> list str -> result pyexn (list str).
Variable yt_find_fetch : str -> list str -> result pyexn (list str).

(** [groq_client.chat.completions.create(...).choices[0].message.content] *)
Variable groq_create : ChatRequest.t -> result pyexn str.

(** What the Qdrant client raises when the collection does not exist. *)
Variable collection_not_found : pyexn.

Record PointStruct := { id : str; vector : Vector; payload : Payload.t }.

(** *** The world the endpoints run in

    [qdrant] is the collection [video_transcripts], keyed by point id, or
    [None] while it has not been created; [uuid_calls] counts the
    identifiers drawn so far; [groq_calls] logs the completion requests
    sent. *)
Record World := {
  qdrant : option (gmap str PointStruct);
  uuid_calls : nat;
  groq_calls : list ChatRequest.t
}.

(** The world with the collection replaced by [c], and the world after
    [k] more identifiers have been drawn. *)
Definition with_qdrant (c : gmap str PointStruct) (w : World) : World :=
  {| qdrant := Some c;
     uuid_calls := uuid_calls w;
     groq_calls := groq_calls w |}.

Definition with_uuids (k : nat) (w : World) : World :=
  {| qdrant := qdrant w;
     uuid_calls := (uuid_calls w + k)%nat;
     groq_calls := groq_calls w |}.

(** State and exceptions: a computation returns a value or raises, and
    leaves a world behind either way. *)
Definition M (A : Type) : Type := World -> result exn A * World.

Definition ret {A} (a : A) : M A := fun w => (Ok a, w).

Definition raise {A} (e : exn) : M A := fun w => (Raise e, w).

Definition bind {A B} (m : M A) (k : A -> M B) : M B :=
  fun w => match m w with
           | (Ok a, w') => k a w'
           | (Raise e, w') => (Raise e, w')
           end.

Definition try_except {A} (m : M A) (handler : exn -> M A) : M A :=
  fun w => match m w with
           | (Ok a, w') => (Ok a, w')
           | (Raise e, w') => handler e w'
           end.

Definition lift {A} (r : result pyexn A) : M A :=
  match r with
  | Ok a => ret a
  | Raise e => raise (PyExn e)
  end.

Notation "x <- m ;; k" := (bind m (fun x => k))
  (at level 100, m at next level, right associativity).
Notation "m ;;; k" := (bind m (fun _ => k))
  (at level 100, right associativity).

(** *** The Qdrant client, on the one collection *)

Definition with_collection {A}
    (f : gmap str PointStruct -> A * gmap str PointStruct) : M A :=
  fun w => match qdrant w with
           | None => (Raise (PyExn collection_not_found), w)
           | Some c => let '(a, c') := f c in (Ok a, with_qdrant c' w)
           end.

Definition get_collection : M unit :=
  with_collection (fun c => (tt, c)).

Definition create_collection : M unit :=
  fun w => (Ok tt, with_qdrant ∅ w).

(** The filter used throughout: [must=[FieldCondition(key="video_id",
    match=MatchValue(value=video_id))]]. *)
Definition matches (video_id : str) (p : PointStruct) : Prop :=
  Payload.video_id (payload p) = video_id.

#[global] Instance matches_dec video_id p : Decision (matches video_id p).
Proof. unfold matches. apply _. Defined.

(** [qdrant_client.delete(points_selector=Filter(...))] *)
Definition delete_points (video_id : str) : M unit :=
  with_collection (fun c =>
    (tt, filter (fun kp => ¬ matches video_id kp.2) c)).

(** [qdrant_client.upsert(points=...)]: a point replaces the stored point
    of the same id. *)
Definition upsert_all (points : list PointStruct)
    (c : gmap str PointStruct) : gmap str PointStruct :=
  foldl (fun c p => <[ id p := p ]> c) c points.

Definition upsert (points : list PointStruct) : M unit :=
  with_collection (fun c => (tt, upsert_all points c)).

(** Ranking by decreasing similarity to the query. *)
Fixpoint insert_ranked (q : Vector) (p : PointStruct)
    (l : list PointStruct) : list PointStruct :=
  match l with
  | [] => [p]
  | x :: l' => if closer q (vector x) (vector p)
               then x :: insert_ranked q p l'
               else p :: x :: l'
  end.

Definition ranked (q : Vector) (l : list PointStruct) : list PointStruct :=
  foldr (insert_ranked q) [] l.

Definition search (c : gmap str PointStruct) (q : Vector)
    (video_id : str) (limit : nat) : list PointStruct :=
  take limit
    (ranked q (filter (matches video_id) (snd <$> map_to_list c))).

(** [qdrant_client.query_points(query=..., query_filter=..., limit=...).points] *)
Definition query_points (q : Vector) (video_id : str) (limit : nat)
    : M (list PointStruct) :=
  with_collection (fun c => (search c q video_id limit, c)).

(** *** The other collaborators *)

Definition uuid4_str : M str :=
  fun w => (Ok (uuid4 (uuid_calls w)), with_uuids 1 w).

Definition chat_completion (req : ChatRequest.t) : M str :=
  fun w => (match groq_create req with
            | Ok a => Ok a
            | Raise e => Raise (PyExn e)
            end,
            {| qdrant := qdrant w;
               uuid_calls := uuid_calls w;
               groq_calls := groq_calls w ++ [req] |}).

(** *** Startup *)

Definition create_collection_if_not_exists : M unit :=
  try_except get_collection (fun _ => create_collection).

Definition startup_event : M unit := create_collection_if_not_exists.

(** *** Exception handling of the endpoints *)

(** [str(e)]; an [HTTPException] prints as its status and detail. *)
Definition str_of_int (z : Z) : str :=
  lit (NilZero.string_of_int (Z.to_int z)).

Definition str_of_exn (e : exn) : str :=
  match e with
  | PyExn e => exn_str e
  | HTTPException code detail => str_of_int code ++ lit ": " ++ detail
  end.

(** The three [except] clauses closing [process_video] and
    [ask_question], in the order of the source. *)
Definition http_errors {A} (body : M A) : M A :=
  try_except body (fun e =>
    match e with
    | PyExn (ValueError msg) => raise (HTTPException 400 msg)
    | HTTPException code detail => raise (HTTPException code detail)
    | PyExn (OtherException _) =>
        raise (HTTPException 500 (lit "Internal error: " ++ str_of_exn e))
    end).

(** *** [POST /process-video] *)

Definition languages : list str := [ lit "en"; lit "en-US"; lit "en-GB" ].

(** [[item['text'] for item in transcript_data]] on the alternative path:
    [transcript.fetch()] is not turned into raw data there, its items are
    snippet objects, and subscripting the first of them raises a
    [TypeError]; only a transcript without snippets gets through. *)
Definition snippet_texts (snippets : list str) : result pyexn (list str) :=
  match snippets with
  | [] => Ok []
  | _ :: _ =>
      Raise (OtherException
               (lit "'FetchedTranscriptSnippet' object is not subscriptable"))
  end.

(** The alternative path, up to the list of texts. *)
Definition find_transcript_texts (video_id : str)
    : result pyexn (list str) :=
  match yt_find_fetch video_id languages with
  | Ok snippets => snippet_texts snippets
  | Raise e2 => Raise e2
  end.

Definition fetch_transcript (video_id : str) : M str :=
  match yt_fetch video_id languages with
  | Ok items => ret (join (lit " ") items)
  | Raise e =>
      match find_transcript_texts video_id with
      | Ok items => ret (join (lit " ") items)
      | Raise e2 =>
          raise (HTTPException 400
                   (lit "Failed to fetch transcript: " ++ exn_str e
                    ++ lit ". Alternative method also failed: " ++ exn_str e2))
      end
  end.

Definition make_point (video_id video_url : str) (uuid : str) (idx : Z)
    (chunk : Chunk) (embedding : Vector) : PointStruct :=
  {| id := uuid;
     vector := embedding;
     payload := {| Payload.video_id := video_id;
                   Payload.text := text chunk;
                   Payload.chunk_index := idx;
                   Payload.video_url := video_url |} |}.

(** The loop building [points]: one identifier is drawn per pair. *)
Fixpoint make_points (video_id video_url : str)
    (pairs : list (Z * (Chunk * Vector))) (points : list PointStruct)
    : M (list PointStruct) :=
  match pairs with
  | [] => ret points
  | (idx, (chunk, embedding)) :: rest =>
      uuid <- uuid4_str ;;
      make_points video_id video_url rest
        (points ++ [ make_point video_id video_url uuid idx chunk embedding ])
  end.

(** The points the loop builds from [pairs] when [n] identifiers have been
    drawn before it. *)
Fixpoint points_from (video_id video_url : str) (n : nat)
    (pairs : list (Z * (Chunk * Vector))) : list PointStruct :=
  match pairs with
  | [] => []
  | (idx, (chunk, embedding)) :: rest =>
      make_point video_id video_url (uuid4 n) idx chunk embedding
      :: points_from video_id video_url (S n) rest
  end.

(** The storing part of [process_video]: delete the points of the video
    (a failure is ignored), build the new points, upsert them. *)
Definition replace_video (video_id video_url : str)
    (chunks : list Chunk) (embeddings : list Vector) : M unit :=
  try_except (delete_points video_id) (fun _ => ret tt) ;;;
  points <- make_points video_id video_url
              (enumerate (zip chunks embeddings)) [] ;;
  upsert points.

Definition process_video (request : VideoRequest.t) : M ProcessResponse.t :=
  http_errors (
    video_id <- lift (extract_video_id (VideoRequest.video_url request)) ;;
    transcript_text <- fetch_transcript video_id ;;
    if strip_is_empty transcript_text
    then raise (HTTPException 400 (lit "Transcript is empty"))
    else
      chunks <- lift (chunk_text transcript_text
                        default_chunk_size default_overlap) ;;
      if negb (truthy chunks)
      then raise (HTTPException 400
                    (lit "Failed to create chunks from transcript"))
      else
        let chunk_texts := List.map text chunks in
        let embeddings := List.map embed chunk_texts in
        replace_video video_id (VideoRequest.video_url request)
          chunks embeddings ;;;
        ret {| ProcessResponse.message := lit "Video processed successfully";
               ProcessResponse.video_id := video_id;
               ProcessResponse.chunks_created := len chunks;
               ProcessResponse.transcript_length := len transcript_text |}).

(** *** [POST /ask] *)

Definition nl : str := [ 10%N ].

(** The f-string of [ask_question]. *)
Definition prompt_head : str :=
  lit "You are a helpful assistant that answers questions about video content."
  ++ nl ++ nl ++ lit "Context from the video transcript:" ++ nl.

Definition prompt_question : str := nl ++ nl ++ lit "Question: ".

Definition prompt_tail : str :=
  nl ++ nl
  ++ lit "Please provide a clear, concise answer based on the context provided. If the context doesn't contain enough information to answer the question, say so.".

Definition build_prompt (context question : str) : str :=
  prompt_head ++ context ++ prompt_question ++ question ++ prompt_tail.

Definition system_message : ChatMessage.t :=
  {| ChatMessage.role := lit "system";
     ChatMessage.content :=
       lit "You are a helpful assistant that answers questions about video content based on provided transcripts." |}.

Definition chat_request (prompt : str) : ChatRequest.t :=
  {| ChatRequest.messages :=
       [ system_message;
         {| ChatMessage.role := lit "user"; ChatMessage.content := prompt |} ];
     ChatRequest.model := lit "llama-3.3-70b-versatile";
     ChatRequest.temperature_tenths := 3;
     ChatRequest.max_tokens := 1024 |}.

(** The part of [ask_question] after the retrieval: prompt, completion,
    response. *)
Definition compose_answer (question : str)
    (search_results : list PointStruct) : M AnswerResponse.t :=
  let relevant_chunks :=
    List.map (fun r => Payload.text (payload r)) search_results in
  let context := join (nl ++ nl) relevant_chunks in
  let prompt := build_prompt context question in
  answer <- chat_completion (chat_request prompt) ;;
  ret {| AnswerResponse.answer := answer;
         AnswerResponse.relevant_chunks := relevant_chunks |}.

Definition ask_question (request : QuestionRequest.t) : M AnswerResponse.t :=
  http_errors (
    video_id <- lift (extract_video_id (QuestionRequest.video_url request)) ;;
    let question_embedding := embed (QuestionRequest.question request) in
    search_results <- query_points question_embedding video_id 5 ;;
    if negb (truthy search_results)
    then raise (HTTPException 404
                  (lit "No content found for this video. Please process the video first."))
    else compose_answer (QuestionRequest.question request) search_results).

(** *** [DELETE /video/{video_id}] *)

Definition delete_video (video_id : str) : M str :=
  try_except
    (delete_points video_id ;;;
     ret (lit "Video " ++ video_id ++ lit " deleted successfully"))
    (fun e => raise (HTTPException 500
                       (lit "Failed to delete video: " ++ str_of_exn e))).

(** *** The service as a transition system *)

(** The points stored for one video. *)
Definition stored_points (w : World) (video_id : str)
    : gmap str PointStruct :=
  filter (fun kp => matches video_id kp.2) (default ∅ (qdrant w)).

(** The world after one request, whatever the response. *)
Definition handle (req : request) (w : World) : World :=
  match req with
  | ProcessVideo r => (process_video r w).2
  | AskQuestion r => (ask_question r w).2
  | DeleteVideo video_id => (delete_video video_id w).2
  end.

(** The worlds the service can be in: after the startup event, and after
    any request from there. *)
Inductive serving : World -> Prop :=
  | serving_startup w : serving (startup_event w).2
  | serving_request w req : serving w -> serving (handle req w).

(** A computation that leaves an existing collection in place. *)
Definition keeps_collection {A} (m : M A) : Prop :=
  forall w, is_Some (qdrant w) -> is_Some (qdrant (m w).2).

(** A computation that sends no completion request. *)
Definition silent {A} (m : M A) : Prop :=
  forall w, groq_calls (m w).2 = groq_calls w.

(** A computation whose exceptions all satisfy [allowed]. *)
Definition raises_only {A} (allowed : exn -> Prop) (m : M A) : Prop :=
  forall w e, (m w).1 = Raise e -> allowed e.

(** An [HTTPException] with one of the given status codes. *)
Definition http_status (codes : list Z) (e : exn) : Prop :=
  match e with
  | HTTPException code _ => code ∈ codes
  | PyExn _ => False
  end.

(** A stored point as [process_video] writes it: kept under its own id,
    an identifier this process drew, with a chunk text that has a word, a
    position that is not negative and a reference that resolves to its
    video. *)
Definition written_by_ingest (w : World) (key : str) (p : PointStruct)
    : Prop :=
  id p = key
  ∧ (exists k, (k < uuid_calls w)%nat ∧ key = uuid4 k)
  ∧ strip_is_empty (Payload.text (payload p)) = false
  ∧ 0 <= Payload.chunk_index (payload p)
  ∧ extract_video_id (Payload.video_url (payload p))
    = Ok (Payload.video_id (payload p)).

Definition consistent (w : World) : Prop :=
  forall key p,
    default ∅ (qdrant w) !! key = Some p -> written_by_ingest w key p.

End Backend.

(** ** Stub collaborators

    Concrete collaborators on which the endpoints can be run: vectors are
    text lengths, the transcript has two items, the completion service
    always gives the same answer. *)

Module Stub.

Definition embed (t : str) : Z := len t.

Definition closer (q v1 v2 : Z) : bool := Z.abs (q - v1) <=? Z.abs (q - v2).

Definition uuid4 (k : nat) : str := lit "point-" ++ [ N.of_nat k ].

Definition yt_fetch (video_id : str) (langs : list str)
    : result pyexn (list str) :=
  Ok [ lit "the cat sat"; lit "on the mat" ].

Definition yt_find_fetch (video_id : str) (langs : list str)
    : result pyexn (list str) :=
  Raise (OtherException (lit "no transcript")).

Definition groq_create (req : ChatRequest.t) : result pyexn str :=
  Ok (lit "The cat sat on the mat.").

Definition collection_not_found : pyexn :=
  ValueError (lit "Collection video_transcripts not found").

(** The world of a process that has just run its startup event. *)
Definition fresh : @World Z :=
  {| qdrant := None; uuid_calls := 0; groq_calls := [] |}.

Definition started : @World Z := (startup_event collection_not_found fresh).2.

Definition url : str := lit "https://youtu.be/abc123".

(** The world after the video abc123 has been processed. *)
Definition processed : @World Z :=
  handle embed closer uuid4 yt_fetch yt_find_fetch groq_create
    collection_not_found
    (ProcessVideo {| VideoRequest.video_url := url |}) started.

(** A transcript service that returns only whitespace. *)
Definition yt_blank (video_id : str) (langs : list str)
    : result pyexn (list str) :=
  Ok [ lit " "; lit "" ].

(** A question about the video abc123. *)
Definition question : QuestionRequest.t :=
  {| QuestionRequest.video_url := url;
     QuestionRequest.question := lit "what sat on the mat?" |}.

End Stub.

(** * Properties *)

(** ** Facts about the Python primitives *)

Lemma split_from_nonempty cur s w : w ∈ split_from cur s → w ≠ [].
Proof.
  revert cur. induction s as [|c s IH]; intros cur; simpl.
  - destruct cur; [by intros ?%elem_of_nil|].
    by intros ->%list_elem_of_singleton.
  - destruct (isspace c); [|by apply IH].
    destruct cur; [by apply IH|].
    intros [->|Hw]%elem_of_cons; [done|by eapply IH].
Qed.

Lemma split_nonempty s : Forall (λ w, w ≠ []) (split s).
Proof. apply Forall_forall. intros w. apply split_from_nonempty. Qed.

(** A text without words is a text of whitespace only. *)
Lemma split_from_nil cur s :
  split_from cur s = [] ↔ cur = [] ∧ forallb isspace s = true.
Proof.
  revert cur. induction s as [|ch s IH]; intros cur; simpl.
  - destruct cur; [done|]. split; [done|]. by intros [? _].
  - destruct (isspace ch); simpl.
    + destruct cur; [apply IH|]. split; [done|]. by intros [? _].
    + rewrite IH. split; [|by intros [_ ?]].
      intros [Hcur _]. by destruct cur.
Qed.

Lemma split_nil s : split s = [] ↔ strip_is_empty s = true.
Proof.
  unfold split, strip_is_empty. rewrite split_from_nil.
  split; [by intros [_ ?]|done].
Qed.

Lemma truthy_join sep parts :
  Forall (λ w : str, w ≠ []) parts → truthy (join sep parts) = truthy parts.
Proof.
  destruct parts as [|p [|q ps]]; [done| |];
    intros [Hp _]%Forall_cons; by destruct p.
Qed.

Lemma truthy_length {A} (l : list A) : truthy l = (0 <? len l).
Proof. by destruct l. Qed.

Lemma adjust_index_range n i : 0 ≤ n → 0 ≤ adjust_index n i ≤ n.
Proof. unfold adjust_index. destruct (Z.ltb_spec i 0); lia. Qed.

Lemma adjust_index_inside n i : 0 ≤ i ≤ n → adjust_index n i = i.
Proof. unfold adjust_index. destruct (Z.ltb_spec i 0); lia. Qed.

Lemma Forall_slice {A} (P : A → Prop) l a b :
  Forall P l → Forall P (slice l a b).
Proof. intros H. unfold slice. by apply Forall_take, Forall_drop. Qed.

Lemma len_slice {A} (l : list A) a b :
  0 ≤ a ≤ len l →
  len (slice l a b) = Z.max 0 (adjust_index (len l) b - a).
Proof.
  intros Ha. unfold slice. rewrite (adjust_index_inside _ a) by done.
  pose proof (adjust_index_range (len l) b) as Hb.
  unfold len in *. rewrite length_take, length_drop. lia.
Qed.

Lemma slice_window {A} (l : list A) i c :
  0 ≤ i ≤ len l → 0 < c →
  slice l i (i + c) = take (Z.to_nat c) (drop (Z.to_nat i) l).
Proof.
  intros Hi Hc. unfold slice. rewrite (adjust_index_inside _ i) by done.
  unfold adjust_index. destruct (Z.ltb_spec (i + c) 0); [lia|].
  destruct (Z.le_ge_cases (i + c) (len l)).
  - f_equal. lia.
  - unfold len in *. rewrite !take_ge; [done| |]; rewrite length_drop; lia.
Qed.

(** [range(0, n, step)] for a positive step. *)
Lemma range_len_pos n step :
  0 < step → range_len 0 n step = if 0 <? n then (n - 1) / step + 1 else 0.
Proof.
  intros Hs. unfold range_len. destruct (Z.ltb_spec 0 step); [|lia].
  destruct (0 <? n); [|done]. do 2 f_equal. lia.
Qed.

Lemma range_len_nonneg n step : 0 < step → 0 ≤ range_len 0 n step.
Proof.
  intros Hs. rewrite range_len_pos by done. destruct (Z.ltb_spec 0 n); [|lia].
  pose proof (Z.div_pos (n - 1) step). lia.
Qed.

Lemma range_position n step k :
  0 < step → (k < Z.to_nat (range_len 0 n step))%nat →
  0 ≤ Z.of_nat k * step < n.
Proof.
  intros Hs Hk. rewrite range_len_pos in Hk by done.
  destruct (Z.ltb_spec 0 n); [|lia].
  pose proof (Z.mul_div_le (n - 1) step Hs).
  pose proof (Z.div_pos (n - 1) step).
  assert (Z.of_nat k ≤ (n - 1) / step) by lia. nia.
Qed.

(** Every start offset below [n] on the stride is visited. *)
Lemma range_complete n step i :
  0 < step → 0 ≤ i → i * step < n →
  (Z.to_nat i < Z.to_nat (range_len 0 n step))%nat.
Proof.
  intros Hs Hi Hlt. rewrite range_len_pos by done.
  destruct (Z.ltb_spec 0 n); [|nia].
  assert (i ≤ (n - 1) / step) by (apply Z.div_le_lower_bound; lia).
  lia.
Qed.

Example chunk_text_two :
  chunk_text (lit "a b  c") 2 1
  = Ok [ {| text := lit "a b"; start_idx := 0 |};
         {| text := lit "b c"; start_idx := 1 |};
         {| text := lit "c"; start_idx := 2 |} ].
Proof. reflexivity. Qed.

(** ** The chunker as a map over a prefix of the stride positions *)

Lemma foldl_chunk_step words c positions acc :
  foldl (chunk_step words c) acc positions
  = acc ++ List.map (chunk_at words c) (List.filter (kept words c) positions).
Proof.
  revert acc. induction positions as [|i l IH]; intros acc; simpl.
  - by rewrite app_nil_r.
  - rewrite IH.
    change (chunk_step words c acc i)
      with (if kept words c i then acc ++ [chunk_at words c i] else acc).
    destruct (kept words c i); [|done]. by rewrite <- app_assoc.
Qed.

Lemma kept_inside words c i :
  Forall (λ w : str, w ≠ []) words → 0 ≤ i ≤ len words →
  kept words c i = (i <? adjust_index (len words) (i + c)).
Proof.
  intros Hw Hi. unfold kept, chunk_at. simpl.
  rewrite truthy_join by by apply Forall_slice.
  rewrite truthy_length, len_slice by done.
  destruct (Z.ltb_spec i (adjust_index (len words) (i + c)));
    destruct (Z.ltb_spec 0 (Z.max 0 (adjust_index (len words) (i + c) - i)));
    lia.
Qed.

(** A kept offset keeps every smaller offset of the text. *)
Lemma kept_downward words c i j :
  Forall (λ w : str, w ≠ []) words →
  0 ≤ i ≤ j → j < len words →
  kept words c j = true → kept words c i = true.
Proof.
  intros Hw Hij Hj. rewrite !kept_inside by (done || lia).
  unfold adjust_index. intros Hk. apply Z.ltb_lt in Hk. apply Z.ltb_lt.
  destruct (Z.ltb_spec (j + c) 0); destruct (Z.ltb_spec (i + c) 0); lia.
Qed.

Lemma kept_positive words c i :
  Forall (λ w : str, w ≠ []) words →
  0 ≤ i < len words → 0 < c → kept words c i = true.
Proof.
  intros Hw Hi Hc. rewrite kept_inside by (done || lia).
  unfold adjust_index. apply Z.ltb_lt.
  destruct (Z.ltb_spec (i + c) 0); lia.
Qed.

(** Filtering a downward closed predicate keeps an initial segment. *)
Lemma filter_seq_prefix (P : nat → bool) n :
  (∀ i j, (i ≤ j < n)%nat → P j = true → P i = true) →
  ∃ m, (m ≤ n)%nat ∧ List.filter P (seq 0 n) = seq 0 m
       ∧ ((∀ i, (i < n)%nat → P i = true) → m = n).
Proof.
  induction n as [|n IH]; intros Hdown.
  - exists 0%nat. split; [lia|]. by split.
  - destruct IH as (m & Hm & Hf & Hall); [intros i j ?; apply Hdown; lia|].
    rewrite seq_S, List.filter_app, Hf. simpl.
    destruct (P n) eqn:Hn.
    + assert (m = n) as ->.
      { apply Hall. intros i Hi. apply (Hdown i n); [lia|done]. }
      exists (S n). rewrite seq_S. split; [lia|]. by split.
    + exists m. rewrite app_nil_r. split; [lia|]. split; [done|].
      intros Htrue. rewrite Htrue in Hn by lia. done.
Qed.

Lemma filter_map_comm {A B} (f : A → B) (P : B → bool) l :
  List.filter P (List.map f l) = List.map f (List.filter (λ x, P (f x)) l).
Proof.
  induction l as [|x l IH]; [done|]. simpl.
  destruct (P (f x)); simpl; by rewrite IH.
Qed.

(** The shape of the result for a positive stride: the chunks at the first
    [m] stride positions, all of them when the chunk size is positive. *)
Lemma chunk_text_shape txt c o :
  o < c →
  ∃ m, (m ≤ Z.to_nat (range_len 0 (len (split txt)) (c - o)))%nat
       ∧ chunk_text txt c o
         = Ok (List.map
                 (λ k, chunk_at (split txt) c (Z.of_nat k * (c - o)))
                 (seq 0 m))
       ∧ (0 < c → m = Z.to_nat (range_len 0 (len (split txt)) (c - o))).
Proof.
  intros Hoc. unfold chunk_text, range.
  destruct (Z.eqb_spec (c - o) 0) as [?|_]; [lia|].
  set (words := split txt). set (n := Z.to_nat (range_len 0 (len words) (c - o))).
  pose proof (split_nonempty txt) as Hw. fold words in Hw.
  destruct (filter_seq_prefix
              (λ k, kept words c (0 + Z.of_nat k * (c - o))) n)
    as (m & Hm & Hf & Hall).
  { intros i j Hij. apply kept_downward; [done| |].
    - nia.
    - pose proof (range_position (len words) (c - o) j). subst n. lia. }
  exists m. split; [done|]. split.
  - f_equal. rewrite foldl_chunk_step. simpl.
    rewrite filter_map_comm, Hf, List.map_map. done.
  - intros Hc. apply Hall. intros i Hi. apply kept_positive; [done| |done].
    pose proof (range_position (len words) (c - o) i). subst n. lia.
Qed.

(** ** The chunk count *)

Lemma ceil_div_spec a b q :
  0 < b → ceil_div a b = q ↔ (q - 1) * b < a ≤ q * b.
Proof.
  intros Hb. unfold ceil_div. split.
  - intros <-. pose proof (Z.mul_div_le (a + b - 1) b Hb).
    pose proof (Z.mul_succ_div_gt (a + b - 1) b Hb). lia.
  - intros [Hlo Hhi]. symmetry. apply Z.div_unique with (a + b - 1 - b * q); lia.
Qed.

Lemma range_len_ceil n step :
  0 < n → 0 < step → range_len 0 n step = ceil_div n step.
Proof.
  intros Hn Hs. rewrite range_len_pos by done.
  destruct (Z.ltb_spec 0 n); [|lia]. unfold ceil_div.
  replace (n + step - 1) with (n - 1 + 1 * step) by lia.
  by rewrite Z.div_add by lia.
Qed.

(** With the default sizes a one-word text gives one chunk, where the
    count of the specification is [ceil(max(1 - 100, 0) / 400) = 0]. *)
Lemma chunk_count_counterexample :
  let txt := lit "hello" in
  0 < len (split txt) ∧ default_overlap < default_chunk_size
  ∧ ∃ chunks,
      chunk_text txt default_chunk_size default_overlap = Ok chunks
      ∧ len chunks = 1
      ∧ spec_chunk_count (len (split txt))
          default_chunk_size default_overlap = 0
      ∧ len chunks
        ≠ spec_chunk_count (len (split txt))
            default_chunk_size default_overlap.
Proof.
  split; [done|]. split; [done|].
  eexists. split; [vm_compute; reflexivity|]. by repeat split.
Qed.

(** A chunk size of zero keeps no chunk at all: the positive chunk size is
    needed for the count below. *)
Lemma chunk_count_zero_size :
  chunk_text (lit "hello") 0 (-1) = Ok [] ∧ ceil_div 1 (0 - -1) = 1.
Proof. split; reflexivity. Qed.

(** C2 (amended). For a text of N > 0 words, a positive chunk size C and
    an overlap O < C, the chunker returns ceil(N / (C - O)) chunks: one
    per stride position below N. *)
Theorem chunk_count txt c o :
  0 < len (split txt) → 0 < c → o < c →
  ∃ chunks, chunk_text txt c o = Ok chunks
            ∧ len chunks = ceil_div (len (split txt)) (c - o).
Proof.
  intros Hn Hc Hoc. destruct (chunk_text_shape txt c o Hoc) as (m & _ & -> & Hm).
  eexists. split; [done|]. unfold len at 1.
  rewrite List.length_map, length_seq, (Hm Hc).
  pose proof (range_len_nonneg (len (split txt)) (c - o)).
  rewrite Z2Nat.id by lia. apply range_len_ceil; lia.
Qed.

Lemma chunk_count_witness :
  0 < len (split (lit "a b c d e f g")) ∧ 0 < 3 ∧ 1 < 3
  ∧ ∃ chunks,
      chunk_text (lit "a b c d e f g") 3 1 = Ok chunks
      ∧ len chunks = ceil_div (len (split (lit "a b c d e f g"))) (3 - 1).
Proof.
  repeat split; [reflexivity..|].
  apply (chunk_count (lit "a b c d e f g") 3 1); reflexivity.
Defined.

(** With the default sizes a text that is not blank gives at least one
    chunk. *)
Lemma chunk_text_default txt :
  strip_is_empty txt = false →
  ∃ chunk chunks,
    chunk_text txt default_chunk_size default_overlap = Ok (chunk :: chunks).
Proof.
  intros Hblank.
  assert (0 < len (split txt)) as Hn.
  { destruct (split txt) eqn:Hs; [|unfold len; simpl; lia].
    apply split_nil in Hs. congruence. }
  destruct (chunk_text_shape txt default_chunk_size default_overlap)
    as (m & _ & -> & Hm); [done|].
  pose proof (range_len_pos (len (split txt))
                (default_chunk_size - default_overlap) eq_refl) as Hlen.
  destruct (Z.ltb_spec 0 (len (split txt))); [|lia].
  pose proof (Z.div_pos (len (split txt) - 1)
                (default_chunk_size - default_overlap)).
  rewrite Hm by done. 
  destruct (Z.to_nat (range_len 0 (len (split txt))
                        (default_chunk_size - default_overlap)))
    as [|n] eqn:Hcount;
    [unfold default_chunk_size, default_overlap in *; lia|].
  simpl. eauto.
Qed.

(** ** The stride *)

(** C3. For every text and every chunk size C and overlap O < C, the first
    chunk of the result starts at offset 0 and every later chunk starts
    exactly C - O words after the chunk before it. *)
Theorem constant_stride txt c o :
  o < c →
  ∃ chunks, chunk_text txt c o = Ok chunks
    ∧ (∀ first, chunks !! 0%nat = Some first → start_idx first = 0)
    ∧ (∀ k prev next,
         chunks !! k = Some prev → chunks !! S k = Some next →
         start_idx next - start_idx prev = c - o).
Proof.
  intros Hoc. destruct (chunk_text_shape txt c o Hoc) as (m & _ & -> & _).
  eexists. split; [done|].
  assert (∀ k ch,
    List.map (λ k, chunk_at (split txt) c (Z.of_nat k * (c - o))) (seq 0 m)
      !! k = Some ch → start_idx ch = Z.of_nat k * (c - o)) as Hk.
  { intros k ch. change (List.map ?f ?l) with (f <$> l).
    rewrite list_lookup_fmap. intros Hl.
    apply fmap_Some in Hl as (i & [-> _]%lookup_seq & ->). done. }
  split.
  - intros first ->%Hk. lia.
  - intros k prev next ->%Hk ->%Hk. lia.
Qed.

Lemma constant_stride_witness :
  1 < 3
  ∧ ∃ chunks,
      chunk_text (lit "the cat sat on the mat") 3 1 = Ok chunks
      ∧ (∀ first, chunks !! 0%nat = Some first → start_idx first = 0)
      ∧ (∀ k prev next,
           chunks !! k = Some prev → chunks !! S k = Some next →
           start_idx next - start_idx prev = 3 - 1).
Proof.
  split; [reflexivity|].
  apply (constant_stride (lit "the cat sat on the mat") 3 1). reflexivity.
Defined.

(** ** A non-positive stride *)

(** An overlap above the chunk size returns a result, the empty list. *)
Lemma invalid_configuration_counterexample :
  3 >= 2 ∧ chunk_text (lit "a b c") 2 3 = Ok [].
Proof. split; [lia|reflexivity]. Qed.

(** C4 (amended). With an overlap equal to the chunk size the chunker
    raises the [ValueError] of a zero range step; with an overlap above
    the chunk size it returns the empty list without an error.  It
    returns in both cases. *)
Theorem invalid_configuration txt c o :
  c ≤ o →
  chunk_text txt c o
  = if o =? c
    then Raise (ValueError (lit "range() arg 3 must not be zero"))
    else Ok [].
Proof.
  intros Hco. unfold chunk_text, range.
  destruct (Z.eqb_spec o c) as [->|Hne].
  - by rewrite Z.sub_diag.
  - destruct (Z.eqb_spec (c - o) 0); [lia|].
    unfold range_len. destruct (Z.ltb_spec 0 (c - o)); [lia|].
    destruct (Z.ltb_spec (len (split txt)) 0); [unfold len in *; lia|].
    done.
Qed.

Lemma invalid_configuration_witness :
  2 ≤ 2 ∧ 2 ≤ 5
  ∧ chunk_text (lit "a b c") 2 2
    = Raise (ValueError (lit "range() arg 3 must not be zero"))
  ∧ chunk_text (lit "a b c") 2 5 = Ok [].
Proof.
  split; [lia|]. split; [lia|]. split.
  - apply (invalid_configuration (lit "a b c") 2 2). lia.
  - apply (invalid_configuration (lit "a b c") 2 5). lia.
Defined.

(** ** The end-to-end example *)

(** The four chunks at offsets 0, 2, 4, 6 are not what the chunker
    returns. *)
Lemma cat_example_counterexample :
  chunk_text (lit "the cat sat on the mat") 3 1
  ≠ Ok [ mk_chunk "the cat sat" 0; mk_chunk "sat on the" 2;
         mk_chunk "on the mat" 4; mk_chunk "the mat" 6 ].
Proof. vm_compute. discriminate. Qed.

(** C5 (amended). Chunking "the cat sat on the mat" with chunk size 3 and
    overlap 1 gives the three chunks "the cat sat", "sat on the" and
    "the mat", at offsets 0, 2 and 4. *)
Theorem cat_example :
  chunk_text (lit "the cat sat on the mat") 3 1
  = Ok [ mk_chunk "the cat sat" 0; mk_chunk "sat on the" 2;
         mk_chunk "the mat" 4 ].
Proof. reflexivity. Qed.

(** ** Coherence of the chunks with the word sequence *)

(** C10. For every text and sizes 0 <= O < C, every chunk of the result
    starts below the number of words, is not empty, and is the
    single-space join of the C words from its start offset (fewer at the
    end of the text); and every word of the text lies in the window of
    some chunk. *)
Theorem chunk_coherence txt c o :
  0 ≤ o < c →
  ∃ chunks, chunk_text txt c o = Ok chunks
    ∧ (∀ ch, ch ∈ chunks →
         0 ≤ start_idx ch < len (split txt)
         ∧ text ch ≠ []
         ∧ text ch = join (lit " ") (window (split txt) c (start_idx ch)))
    ∧ (∀ j w, split txt !! j = Some w →
         ∃ ch, ch ∈ chunks
               ∧ start_idx ch ≤ Z.of_nat j < start_idx ch + c
               ∧ window (split txt) c (start_idx ch)
                   !! (j - Z.to_nat (start_idx ch))%nat = Some w).
Proof.
  intros [Ho Hoc]. assert (0 < c) as Hc by lia.
  destruct (chunk_text_shape txt c o Hoc) as (m & _ & -> & Hm).
  specialize (Hm Hc). eexists. split; [done|].
  set (words := split txt) in *. set (s := c - o) in *.
  pose proof (split_nonempty txt) as Hw. fold words in Hw.
  assert (∀ ch,
    ch ∈ List.map (λ k, chunk_at words c (Z.of_nat k * s)) (seq 0 m)
    ↔ ∃ k, (k < m)%nat ∧ ch = chunk_at words c (Z.of_nat k * s)) as Hin.
  { intros ch. change (List.map ?f ?l) with (f <$> l).
    rewrite list_elem_of_fmap. setoid_rewrite elem_of_seq.
    split; intros (k & ? & ?); exists k; split; (done || lia). }
  split.
  - intros ch (k & Hk & ->)%Hin. simpl.
    pose proof (range_position (len words) s k) as Hpos.
    assert (0 ≤ Z.of_nat k * s < len words) as Hi by (apply Hpos; lia).
    split; [done|]. split.
    + pose proof (kept_positive words c _ Hw Hi Hc) as Hkept.
      unfold kept in Hkept. simpl in Hkept. by destruct (join _ _).
    + unfold window. by rewrite slice_window by lia.
  - intros j w Hj.
    pose proof (lookup_lt_Some _ _ _ Hj) as Hlt.
    set (k := Z.of_nat j / s).
    assert (0 < s) as Hs by (subst s; lia).
    assert (0 ≤ k) as Hk0 by (apply Z.div_pos; lia).
    pose proof (Z.mul_div_le (Z.of_nat j) s Hs) as Hle.
    pose proof (Z.mul_succ_div_gt (Z.of_nat j) s Hs) as Hgt.
    fold k in Hle, Hgt.
    assert (k * s < len words) as Hks by (unfold len; lia).
    pose proof (range_complete (len words) s k Hs Hk0 Hks) as Hrange.
    exists (chunk_at words c (k * s)). split; [|simpl; split].
    + apply Hin. exists (Z.to_nat k). split; [lia|].
      by rewrite Z2Nat.id by done.
    + subst s. lia.
    + unfold window. rewrite lookup_take_lt by (subst s; lia).
      rewrite lookup_drop. rewrite <- Hj. f_equal. lia.
Qed.

Lemma chunk_coherence_witness :
  0 ≤ 1 < 3
  ∧ ∃ chunks, chunk_text (lit "the cat sat on the mat") 3 1 = Ok chunks
    ∧ (∀ ch, ch ∈ chunks →
         0 ≤ start_idx ch < len (split (lit "the cat sat on the mat"))
         ∧ text ch ≠ []
         ∧ text ch
           = join (lit " ")
               (window (split (lit "the cat sat on the mat")) 3 (start_idx ch)))
    ∧ (∀ j w, split (lit "the cat sat on the mat") !! j = Some w →
         ∃ ch, ch ∈ chunks
               ∧ start_idx ch ≤ Z.of_nat j < start_idx ch + 3
               ∧ window (split (lit "the cat sat on the mat")) 3 (start_idx ch)
                   !! (j - Z.to_nat (start_idx ch))%nat = Some w).
Proof. split; [lia|]. apply chunk_coherence. lia. Defined.

(** ** The video identifier resolver *)

Example extract_with_query :
  extract_video_id (lit "https://www.youtube.com/watch?v=abc123&t=10s")
  = Ok (lit "abc123").
Proof. reflexivity. Qed.

(** The only exception of the resolver is the [ValueError] of its last
    line. *)
Lemma extract_video_id_raises url e :
  extract_video_id url = Raise e → e = ValueError (lit "Invalid YouTube URL").
Proof.
  unfold extract_video_id. destruct (first_match patterns url); [done|].
  by intros [= <-].
Qed.

(** C6. The watch, short-link and embed forms of a reference to the video
    abc123 all resolve to "abc123", and a string that is no such
    reference raises the resolver's [ValueError] (the invalid reference
    error). *)
Theorem identifier_resolution :
  extract_video_id (lit "https://www.youtube.com/watch?v=abc123")
  = Ok (lit "abc123")
  ∧ extract_video_id (lit "https://youtu.be/abc123") = Ok (lit "abc123")
  ∧ extract_video_id (lit "https://www.youtube.com/embed/abc123")
    = Ok (lit "abc123")
  ∧ extract_video_id (lit "not a url")
    = Raise (ValueError (lit "Invalid YouTube URL")).
Proof. repeat split; reflexivity. Qed.

(** ** The endpoints *)

Lemma enumerate_from_lookup {A} (l : list A) a k :
  enumerate_from a l !! k = (λ x, (a + Z.of_nat k, x)) <$> l !! k.
Proof.
  revert a k. induction l as [|x l IH]; intros a [|k]; simpl; try done.
  - by rewrite Z.add_0_r.
  - rewrite IH. destruct (l !! k); simpl; [|done]. do 2 f_equal. lia.
Qed.

Lemma enumerate_from_length {A} (l : list A) a :
  length (enumerate_from a l) = length l.
Proof.
  revert a. induction l as [|x l IH]; intros a; simpl; by rewrite ?IH.
Qed.

Lemma filter_none {A} (P : A → Prop) `{∀ x, Decision (P x)} (l : list A) :
  (∀ x, x ∈ l → ¬ P x) → filter P l = [].
Proof.
  induction l as [|x l IH]; intros Hl; [done|].
  rewrite filter_cons_False by (apply Hl; left).
  apply IH. intros y Hy. apply Hl. by right.
Qed.

Create HintDb keeps.

Section BackendFacts.
Context {Vector : Type}.
Variable embed : str -> Vector.
Variable closer : Vector -> Vector -> Vector -> bool.
Variable uuid4 : nat -> str.
Variable yt_fetch : str -> list str -> result pyexn (list str).
Variable yt_find_fetch : str -> list str -> result pyexn (list str).
Variable groq_create : ChatRequest.t -> result pyexn str.
Variable collection_not_found : pyexn.

Local Abbreviation point := (@PointStruct Vector).
Local Abbreviation M := (@M Vector).
Local Abbreviation serving :=
  (@serving Vector embed closer uuid4 yt_fetch yt_find_fetch groq_create
     collection_not_found).
Local Abbreviation process_video :=
  (@process_video Vector embed uuid4 yt_fetch yt_find_fetch
     collection_not_found).
Local Abbreviation ask_question :=
  (@ask_question Vector embed closer groq_create collection_not_found).
Local Abbreviation delete_video :=
  (@delete_video Vector collection_not_found).
Local Abbreviation replace_video :=
  (@replace_video Vector uuid4 collection_not_found).
Local Abbreviation query_points :=
  (@query_points Vector closer collection_not_found).

Implicit Types (w : @World Vector) (c : gmap str point) (p : point)
  (pairs : list (Z * (Chunk * Vector))) (embeddings : list Vector).

(** *** Running the Qdrant calls on an existing collection *)

Lemma with_qdrant_same w c : qdrant w = Some c → with_qdrant c w = w.
Proof. destruct w. simpl. by intros ->. Qed.

Lemma with_collection_run {A} (f : gmap str point → A * gmap str point) w c :
  qdrant w = Some c →
  with_collection collection_not_found f w
  = (Ok (f c).1, with_qdrant (f c).2 w).
Proof. intros Hc. unfold with_collection. rewrite Hc. by destruct (f c). Qed.

Lemma delete_points_run vid w c :
  qdrant w = Some c →
  delete_points collection_not_found vid w
  = (Ok tt, with_qdrant (filter (λ kp, ¬ matches vid kp.2) c) w).
Proof.
  intros Hc. unfold delete_points. by rewrite (with_collection_run _ w c).
Qed.

Lemma make_points_run vid url pairs acc w :
  make_points uuid4 vid url pairs acc w
  = (Ok (acc ++ points_from uuid4 vid url (uuid_calls w) pairs),
     with_uuids (length pairs) w).
Proof.
  revert acc w. induction pairs as [|[idx [chunk e]] rest IH]; intros acc w.
  - simpl. rewrite app_nil_r. unfold ret, with_uuids. destruct w. simpl.
    by rewrite Nat.add_0_r.
  - simpl. unfold bind, uuid4_str. rewrite IH. simpl.
    rewrite <- app_assoc. unfold with_uuids. simpl.
    by rewrite Nat.add_1_r, Nat.add_succ_r.
Qed.

Lemma replace_video_run vid url chunks embeddings w c :
  qdrant w = Some c →
  replace_video vid url chunks embeddings w
  = (Ok tt,
     with_qdrant
       (upsert_all
          (points_from uuid4 vid url (uuid_calls w)
             (enumerate (zip chunks embeddings)))
          (filter (λ kp, ¬ matches vid kp.2) c))
       (with_uuids (length (enumerate (zip chunks embeddings))) w)).
Proof.
  intros Hc. unfold replace_video, bind, try_except.
  rewrite (delete_points_run vid w c Hc), make_points_run. simpl.
  unfold upsert. erewrite with_collection_run by done. done.
Qed.

Lemma delete_video_run vid w c :
  qdrant w = Some c →
  delete_video vid w
  = (Ok (lit "Video " ++ vid ++ lit " deleted successfully"),
     with_qdrant (filter (λ kp, ¬ matches vid kp.2) c) w).
Proof.
  intros Hc. unfold delete_video, try_except, bind.
  by rewrite (delete_points_run vid w c Hc).
Qed.

(** *** Upsert *)

Lemma upsert_all_lookup (points : list point) c key p :
  NoDup (id <$> points) →
  upsert_all points c !! key = Some p
  ↔ (p ∈ points ∧ id p = key)
    ∨ ((key ∉ (id <$> points)) ∧ c !! key = Some p).
Proof.
  revert c. induction points as [|q points IH]; intros c Hnd.
  - simpl. rewrite elem_of_nil. split.
    + intros Hc. right. split; [apply not_elem_of_nil|done].
    + by intros [[[] _]|[_ Hc]].
  - rewrite fmap_cons in Hnd. apply NoDup_cons in Hnd as [Hq Hnd].
    change (upsert_all (q :: points) c)
      with (upsert_all points (<[id q := q]> c)).
    rewrite IH by done. rewrite fmap_cons, !elem_of_cons.
    pose proof (list_elem_of_fmap_2 id points) as Hin.
    destruct (decide (id q = key)) as [<-|Hne].
    + rewrite lookup_insert_eq. split.
      * intros [[Hp Hid]|[_ [= <-]]]; [|by left; split; [left|]].
        left. split; [by right|done].
      * intros [[[->|Hp] Hid]|[Hk _]]; [by right| |].
        -- destruct Hq. rewrite <- Hid. by apply Hin.
        -- destruct Hk. by left.
    + rewrite lookup_insert_ne by done. split.
      * intros [[Hp Hid]|[Hk Hc]]; [left; split; [by right|done]|].
        right. split; [|done]. intros [->|?]; done.
      * intros [[[->|Hp] Hid]|[Hk Hc]]; [done|by left|].
        right. split; [|done]. intros ?. apply Hk. by right.
Qed.

(** *** The points of one ingest *)

Lemma points_from_lookup vid url n pairs k p :
  points_from uuid4 vid url n pairs !! k = Some p
  ↔ ∃ idx chunk e, pairs !! k = Some (idx, (chunk, e))
                   ∧ p = make_point vid url (uuid4 (n + k)) idx chunk e.
Proof.
  revert n k. induction pairs as [|[idx [chunk e]] rest IH]; intros n k.
  - simpl. rewrite !lookup_nil. split; [done|]. by intros (? & ? & ? & ? & _).
  - destruct k as [|k]; simpl.
    + rewrite Nat.add_0_r. split.
      * intros [= <-]. by exists idx, chunk, e.
      * by intros (? & ? & ? & [= <- <- <-] & ->).
    + rewrite IH. by rewrite Nat.add_succ_r.
Qed.

Lemma points_from_ids vid url n pairs :
  id <$> points_from uuid4 vid url n pairs = uuid4 <$> seq n (length pairs).
Proof.
  revert n. induction pairs as [|[idx [chunk e]] rest IH]; intros n; [done|].
  simpl. by rewrite IH.
Qed.

Lemma points_from_matches vid url n pairs p :
  p ∈ points_from uuid4 vid url n pairs → matches vid p.
Proof.
  intros (k & Hk)%list_elem_of_lookup.
  apply points_from_lookup in Hk as (? & ? & ? & _ & ->). done.
Qed.

(** *** Replacing the points of a video *)

Section UniqueIdentifiers.

(** [uuid4] does not return the same identifier twice. *)
Hypothesis uuid4_unique : ∀ i j, uuid4 i = uuid4 j → i = j.

Lemma points_from_NoDup vid url n pairs :
  NoDup (id <$> points_from uuid4 vid url n pairs).
Proof.
  rewrite points_from_ids. apply NoDup_fmap_2; [|apply NoDup_seq].
  intros i j. apply uuid4_unique.
Qed.

(** After the points of a video were deleted and the points of an ingest
    upserted, the video owns exactly the points of that ingest. *)
Lemma replaced_elem vid url n pairs c key p :
  filter (λ kp, matches vid kp.2)
    (upsert_all (points_from uuid4 vid url n pairs)
       (filter (λ kp, ¬ matches vid kp.2) c)) !! key = Some p
  ↔ p ∈ points_from uuid4 vid url n pairs ∧ id p = key.
Proof.
  rewrite map_lookup_filter_Some. simpl.
  rewrite upsert_all_lookup by apply points_from_NoDup. split.
  - intros [[Hp|[_ Hc]] Hm]; [done|].
    apply map_lookup_filter_Some in Hc as [_ Hc]. by destruct Hc.
  - intros [Hp Hid]. split; [by left|]. by eapply points_from_matches.
Qed.

Lemma replaced_lookup vid url n pairs c key p :
  filter (λ kp, matches vid kp.2)
    (upsert_all (points_from uuid4 vid url n pairs)
       (filter (λ kp, ¬ matches vid kp.2) c)) !! key = Some p
  ↔ ∃ k idx chunk e, pairs !! k = Some (idx, (chunk, e))
                     ∧ key = uuid4 (n + k)
                     ∧ p = make_point vid url key idx chunk e.
Proof.
  rewrite replaced_elem. split.
  - intros [(k & Hk)%list_elem_of_lookup Hid].
    apply points_from_lookup in Hk as (idx & chunk & e & Hk & ->).
    exists k, idx, chunk, e. simpl in Hid. by subst key.
  - intros (k & idx & chunk & e & Hk & -> & ->). split; [|done].
    apply list_elem_of_lookup. exists k.
    apply points_from_lookup. by exists idx, chunk, e.
Qed.

Lemma replaced_size vid url n pairs c :
  size (filter (λ kp, matches vid kp.2)
          (upsert_all (points_from uuid4 vid url n pairs)
             (filter (λ kp, ¬ matches vid kp.2) c)))
  = length pairs.
Proof.
  set (points := points_from uuid4 vid url n pairs).
  assert (NoDup (id <$> points)) as Hnd by apply points_from_NoDup.
  assert (filter (λ kp, matches vid kp.2)
            (upsert_all points (filter (λ kp, ¬ matches vid kp.2) c))
          = list_to_map ((λ p, (id p, p)) <$> points)) as ->.
  { apply map_eq. intros key. apply option_eq. intros p.
    subst points. rewrite replaced_elem.
    rewrite <- elem_of_list_to_map by (by rewrite <- list_fmap_compose).
    rewrite list_elem_of_fmap. split.
    - intros [Hp <-]. by exists p.
    - by intros (q & [= -> ->] & Hq). }
  rewrite map_size_list_to_map by (by rewrite <- list_fmap_compose).
  rewrite length_fmap. subst points.
  rewrite <- (length_fmap id), points_from_ids.
  by rewrite length_fmap, length_seq.
Qed.

End UniqueIdentifiers.

(** *** The collection, once created, stays *)

Lemma keeps_ret {A} (a : A) : keeps_collection (@ret Vector A a).
Proof. by intros w. Qed.

Lemma keeps_raise {A} e : keeps_collection (@raise Vector A e).
Proof. by intros w. Qed.

Lemma keeps_lift {A} (r : result pyexn A) :
  keeps_collection (@lift Vector A r).
Proof. destruct r; [apply keeps_ret|apply keeps_raise]. Qed.

Lemma keeps_bind {A B} (m : M A) (k : A → M B) :
  keeps_collection m → (∀ a, keeps_collection (k a)) →
  keeps_collection (bind m k).
Proof.
  intros Hm Hk w Hw. unfold bind. specialize (Hm w Hw).
  destruct (m w) as [[a|e] w']; [by apply Hk|done].
Qed.

Lemma keeps_try_except {A} (m : M A) (h : exn → M A) :
  keeps_collection m → (∀ e, keeps_collection (h e)) →
  keeps_collection (try_except m h).
Proof.
  intros Hm Hh w Hw. unfold try_except. specialize (Hm w Hw).
  destruct (m w) as [[a|e] w']; [done|by apply Hh].
Qed.

Lemma keeps_with_collection {A} (f : gmap str point → A * gmap str point) :
  keeps_collection (with_collection collection_not_found f).
Proof.
  intros w Hw. unfold with_collection.
  destruct (qdrant w); [|done]. by destruct (f _).
Qed.

Lemma keeps_make_points vid url pairs acc :
  keeps_collection (make_points uuid4 vid url pairs acc).
Proof. intros w Hw. by rewrite make_points_run. Qed.

Lemma keeps_chat_completion req :
  keeps_collection (@chat_completion Vector groq_create req).
Proof. by intros w. Qed.

#[local] Hint Resolve keeps_ret keeps_raise keeps_lift keeps_with_collection
  keeps_make_points keeps_chat_completion : keeps.

Lemma keeps_http_errors {A} (m : M A) :
  keeps_collection m → keeps_collection (http_errors m).
Proof.
  intros Hm. apply keeps_try_except; [done|].
  intros [[?|?]|??]; auto with keeps.
Qed.

Lemma keeps_replace_video vid url chunks embeddings :
  keeps_collection (replace_video vid url chunks embeddings).
Proof.
  apply keeps_bind; [|intros _; apply keeps_bind]; unfold upsert;
    auto with keeps.
  apply keeps_try_except; unfold delete_points; auto with keeps.
Qed.

Lemma keeps_process_video r : keeps_collection (process_video r).
Proof.
  apply keeps_http_errors, keeps_bind; [auto with keeps|].
  intros vid. apply keeps_bind.
  { unfold fetch_transcript.
    destruct (yt_fetch _ _); [auto with keeps|].
    destruct (find_transcript_texts _ _); auto with keeps. }
  intros txt. destruct (strip_is_empty txt); [auto with keeps|].
  apply keeps_bind; [auto with keeps|].
  intros chunks. destruct (negb (truthy chunks)); [auto with keeps|].
  apply keeps_bind; [apply keeps_replace_video|]. auto with keeps.
Qed.

Lemma keeps_ask_question r : keeps_collection (ask_question r).
Proof.
  apply keeps_http_errors, keeps_bind; [auto with keeps|].
  intros vid. apply keeps_bind; [unfold query_points; auto with keeps|].
  intros results. destruct (negb (truthy results)); [auto with keeps|].
  apply keeps_bind; auto with keeps.
Qed.

Lemma keeps_delete_video vid : keeps_collection (delete_video vid).
Proof.
  apply keeps_try_except; [|auto with keeps].
  apply keeps_bind; unfold delete_points; auto with keeps.
Qed.

Lemma startup_creates w :
  is_Some (qdrant (startup_event collection_not_found w).2).
Proof.
  unfold startup_event, create_collection_if_not_exists, try_except,
    get_collection, with_collection.
  destruct (qdrant w) eqn:Hq; simpl; by eauto.
Qed.

(** A serving world has the collection. *)
Lemma serving_collection w : serving w → is_Some (qdrant w).
Proof.
  induction 1 as [w|w req _ IH]; [apply startup_creates|].
  destruct req; simpl.
  - by apply keeps_process_video.
  - by apply keeps_ask_question.
  - by apply keeps_delete_video.
Qed.

(** *** Processing a video *)

(** With a transcript that is not blank, [process_video] stores the chunks
    of the transcript through [replace_video] and reports their number. *)
Lemma process_video_stores w c request vid items :
  qdrant w = Some c →
  extract_video_id (VideoRequest.video_url request) = Ok vid →
  yt_fetch vid languages = Ok items →
  strip_is_empty (join (lit " ") items) = false →
  ∃ chunks,
    chunk_text (join (lit " ") items) default_chunk_size default_overlap
    = Ok chunks
    ∧ process_video request w
      = (Ok {| ProcessResponse.message := lit "Video processed successfully";
               ProcessResponse.video_id := vid;
               ProcessResponse.chunks_created := len chunks;
               ProcessResponse.transcript_length :=
                 len (join (lit " ") items) |},
         (replace_video vid (VideoRequest.video_url request) chunks
            (List.map embed (List.map text chunks)) w).2).
Proof.
  intros Hc Hvid Hfetch Hblank.
  destruct (chunk_text_default _ Hblank) as (chunk & chunks & Hchunks).
  exists (chunk :: chunks). split; [done|].
  unfold process_video, http_errors, try_except, bind, fetch_transcript.
  rewrite Hvid. unfold lift, ret. cbv beta iota.
  rewrite Hfetch. cbv beta iota. rewrite Hblank, Hchunks.
  change (negb (truthy (chunk :: chunks))) with false. cbv beta iota.
  by rewrite (replace_video_run _ _ _ _ w c Hc).
Qed.

(** *** Ingesting a video twice *)

(** C1. Replace semantics of the ingest: storing chunk set A for a video
    and then chunk set B leaves exactly the points of B stored under that
    video: a point is stored under the video exactly when it is the point
    of the k-th (chunk, vector) pair of B, under the k-th new identifier,
    with that vector, the video identifier, the chunk's text, chunk_index
    k and the reference of the second ingest; there is one stored point
    per pair of B; and no point of A is left in the collection. *)
Theorem replace_semantics w vid urlA chunksA vecsA urlB chunksB vecsB :
  (∀ i j, uuid4 i = uuid4 j → i = j) →
  serving w →
  ∃ w1 w2,
    replace_video vid urlA chunksA vecsA w = (Ok tt, w1)
    ∧ replace_video vid urlB chunksB vecsB w1 = (Ok tt, w2)
    ∧ (∀ key p,
         stored_points w2 vid !! key = Some p
         ↔ ∃ k chunk e,
             zip chunksB vecsB !! k = Some (chunk, e)
             ∧ key = uuid4 (uuid_calls w1 + k)
             ∧ p = {| id := key;
                      vector := e;
                      payload :=
                        {| Payload.video_id := vid;
                           Payload.text := text chunk;
                           Payload.chunk_index := Z.of_nat k;
                           Payload.video_url := urlB |} |})
    ∧ size (stored_points w2 vid) = length (zip chunksB vecsB)
    ∧ (∀ k chunk e key,
         zip chunksA vecsA !! k = Some (chunk, e) →
         default ∅ (qdrant w2) !! key
         ≠ Some {| id := uuid4 (uuid_calls w + k);
                   vector := e;
                   payload :=
                     {| Payload.video_id := vid;
                        Payload.text := text chunk;
                        Payload.chunk_index := Z.of_nat k;
                        Payload.video_url := urlA |} |}).
Proof.
  intros Huniq [c Hc]%serving_collection. eexists _, _.
  split; [by apply replace_video_run|].
  split; [by apply replace_video_run|].
  unfold stored_points. simpl.
  set (c1 := upsert_all _ (filter _ c)).
  set (n1 := (uuid_calls w + length (enumerate (zip chunksA vecsA)))%nat).
  assert (∀ key p,
    filter (λ kp, matches vid kp.2)
      (upsert_all
         (points_from uuid4 vid urlB n1 (enumerate (zip chunksB vecsB)))
         (filter (λ kp, ¬ matches vid kp.2) c1)) !! key = Some p
    ↔ ∃ k chunk e,
        zip chunksB vecsB !! k = Some (chunk, e)
        ∧ key = uuid4 (n1 + k)
        ∧ p = make_point vid urlB key (Z.of_nat k) chunk e) as Hexact.
  { intros key p. rewrite replaced_lookup by done. unfold enumerate.
    setoid_rewrite enumerate_from_lookup. split.
    - intros (k & idx & chunk & e & Hk & -> & ->).
      apply fmap_Some in Hk as ([chunk' e'] & Hk & [= -> <- <-]).
      by exists k, chunk, e.
    - intros (k & chunk & e & Hk & -> & ->).
      exists k, (0 + Z.of_nat k), chunk, e. by rewrite Hk. }
  split; [exact Hexact|]. split.
  - rewrite replaced_size by done. apply enumerate_from_length.
  - intros k chunk e key Hk Hkey.
    pose proof (lookup_lt_Some _ _ _ Hk) as Hlt.
    destruct (Hexact key
                (make_point vid urlA (uuid4 (uuid_calls w + k))
                   (Z.of_nat k) chunk e))
      as [(k' & ? & ? & _ & -> & Hp) _];
      [by apply map_lookup_filter_Some|].
    apply (f_equal id) in Hp. simpl in Hp. apply Huniq in Hp.
    subst n1. unfold enumerate in Hp.
    rewrite enumerate_from_length in Hp. lia.
Qed.

(** *** Asking about a video without points *)

Lemma search_none c q vid limit :
  filter (λ kp, matches vid kp.2) c = ∅ → search closer c q vid limit = [].
Proof.
  intros Hnone. unfold search. rewrite filter_none; [by destruct limit|].
  intros p ([key p'] & -> & Hp)%list_elem_of_fmap Hm. simpl in Hm.
  apply elem_of_map_to_list in Hp.
  assert (filter (λ kp, matches vid kp.2) c !! key = Some p') as Hf
    by by apply map_lookup_filter_Some.
  by rewrite Hnone, lookup_empty in Hf.
Qed.

(** C7. For a video with no stored points the filtered similarity query
    returns the empty list, not an error, and [ask_question] on a
    reference to that video raises the 404 "No content found" response;
    neither changes the world. *)
Theorem ask_without_content w request vid :
  serving w →
  extract_video_id (QuestionRequest.video_url request) = Ok vid →
  stored_points w vid = ∅ →
  (∀ q limit, query_points q vid limit w = (Ok [], w))
  ∧ ask_question request w
    = (Raise (HTTPException 404
                (lit "No content found for this video. Please process the video first.")),
       w).
Proof.
  intros [c Hc]%serving_collection Hvid Hnone.
  unfold stored_points in Hnone. rewrite Hc in Hnone. simpl in Hnone.
  assert (∀ q limit, query_points q vid limit w = (Ok [], w)) as Hquery.
  { intros q limit. unfold query_points.
    rewrite (with_collection_run _ w c Hc). simpl.
    by rewrite search_none, with_qdrant_same. }
  split; [done|].
  unfold ask_question, http_errors, try_except, bind.
  rewrite Hvid. simpl. by rewrite Hquery.
Qed.

(** A reference the resolver rejects is answered with 400. *)
Lemma ask_invalid_reference w request e :
  extract_video_id (QuestionRequest.video_url request) = Raise e →
  ask_question request w
  = (Raise (HTTPException 400 (lit "Invalid YouTube URL")), w).
Proof.
  intros He. pose proof (extract_video_id_raises _ _ He) as ->.
  unfold ask_question, http_errors, try_except, bind. by rewrite He.
Qed.

(** *** Deleting a video *)

(** C8. [delete_video] succeeds for every video identifier, with or
    without stored points: it returns the success message, afterwards no
    point of that video is stored, a video without points leaves the
    world as it was, and deleting again succeeds again without further
    change. *)
Theorem delete_video_succeeds w vid :
  serving w →
  ∃ w', delete_video vid w
        = (Ok (lit "Video " ++ vid ++ lit " deleted successfully"), w')
        ∧ stored_points w' vid = ∅
        ∧ (stored_points w vid = ∅ → w' = w)
        ∧ delete_video vid w'
          = (Ok (lit "Video " ++ vid ++ lit " deleted successfully"), w').
Proof.
  intros [c Hc]%serving_collection.
  set (c' := filter (λ kp : str * point, ¬ matches vid kp.2) c).
  assert (filter (λ kp : str * point, matches vid kp.2) c' = ∅) as Hgone.
  { apply map_empty. intros key. apply eq_None_not_Some. intros [p Hp].
    apply map_lookup_filter_Some in Hp as [Hp Hm].
    apply map_lookup_filter_Some in Hp as [_ Hn]. done. }
  assert (∀ d : gmap str point,
               filter (λ kp : str * point, matches vid kp.2) d = ∅ →
               filter (λ kp : str * point, ¬ matches vid kp.2) d = d)
    as Hid.
  { intros d Hd. apply map_eq. intros key. apply option_eq. intros p.
    rewrite map_lookup_filter_Some. split; [by intros [? _]|].
    intros Hp. split; [done|]. intros Hm.
    assert (filter (λ kp : str * point, matches vid kp.2) d !! key
            = Some p) as Hf by by apply map_lookup_filter_Some.
    by rewrite Hd, lookup_empty in Hf. }
  exists (with_qdrant c' w). split; [by apply delete_video_run|].
  split; [done|]. split.
  - unfold stored_points. rewrite Hc. simpl. intros Hnone.
    subst c'. rewrite Hid by done. by apply with_qdrant_same.
  - rewrite (delete_video_run vid _ c') by done.
    rewrite Hid by done. by destruct w.
Qed.

(** *** The grounding prompt *)

(** C9. For every question and every sequence of retrieved points, the
    composer sends exactly one completion request: the fixed system
    message and one user message, which is the fixed template around the
    chunk texts, joined by blank lines in the order received, followed by
    the question, for the fixed model, temperature and token limit; the
    answer of the completion service to that request is returned
    unchanged together with the chunk texts in the same order (and a
    failure of the service is raised as it is). *)
Theorem grounding_prompt w question (results : list point) :
  let chunks := List.map (λ r, Payload.text (payload r)) results in
  let prompt :=
    lit "You are a helpful assistant that answers questions about video content."
    ++ nl ++ nl ++ lit "Context from the video transcript:" ++ nl
    ++ join (nl ++ nl) chunks
    ++ nl ++ nl ++ lit "Question: " ++ question
    ++ nl ++ nl
    ++ lit "Please provide a clear, concise answer based on the context provided. If the context doesn't contain enough information to answer the question, say so." in
  let request :=
    {| ChatRequest.messages :=
         [ {| ChatMessage.role := lit "system";
              ChatMessage.content :=
                lit "You are a helpful assistant that answers questions about video content based on provided transcripts." |};
           {| ChatMessage.role := lit "user";
              ChatMessage.content := prompt |} ];
       ChatRequest.model := lit "llama-3.3-70b-versatile";
       ChatRequest.temperature_tenths := 3;
       ChatRequest.max_tokens := 1024 |} in
  compose_answer groq_create question results w
  = (match groq_create request with
     | Ok answer =>
         Ok {| AnswerResponse.answer := answer;
               AnswerResponse.relevant_chunks := chunks |}
     | Raise e => Raise (PyExn e)
     end,
     {| qdrant := qdrant w;
        uuid_calls := uuid_calls w;
        groq_calls := groq_calls w ++ [ request ] |}).
Proof.
  intros chunks prompt request. unfold compose_answer, bind, chat_completion.
  cbv zeta. fold chunks.
  assert (build_prompt (join (nl ++ nl) chunks) question = prompt) as ->.
  { unfold build_prompt, prompt_head, prompt_question, prompt_tail, prompt.
    by rewrite <- !app_assoc. }
  change (chat_request prompt) with request.
  by destruct (groq_create request).
Qed.

(** The prompt and the completion request written out: the f-string of
    [ask_question] and the keyword arguments of the completion call. *)
Lemma build_prompt_text (context question : str) :
  build_prompt context question
  = lit "You are a helpful assistant that answers questions about video content."
    ++ nl ++ nl ++ lit "Context from the video transcript:" ++ nl
    ++ context
    ++ nl ++ nl ++ lit "Question: " ++ question
    ++ nl ++ nl
    ++ lit "Please provide a clear, concise answer based on the context provided. If the context doesn't contain enough information to answer the question, say so.".
Proof.
  unfold build_prompt, prompt_head, prompt_question, prompt_tail.
  by rewrite <- !app_assoc.
Qed.

Lemma chat_request_record (prompt : str) :
  chat_request prompt
  = {| ChatRequest.messages :=
         [ {| ChatMessage.role := lit "system";
              ChatMessage.content :=
                lit "You are a helpful assistant that answers questions about video content based on provided transcripts." |};
           {| ChatMessage.role := lit "user";
              ChatMessage.content := prompt |} ];
       ChatRequest.model := lit "llama-3.3-70b-versatile";
       ChatRequest.temperature_tenths := 3;
       ChatRequest.max_tokens := 1024 |}.
Proof. reflexivity. Qed.

(** With points stored for the video, [ask_question] answers from the
    five best-ranked ones. *)
Lemma ask_question_answers w c request vid :
  qdrant w = Some c →
  extract_video_id (QuestionRequest.video_url request) = Ok vid →
  search closer c (embed (QuestionRequest.question request)) vid 5 ≠ [] →
  ask_question request w
  = http_errors
      (compose_answer groq_create (QuestionRequest.question request)
         (search closer c (embed (QuestionRequest.question request)) vid 5))
      w.
Proof.
  intros Hc Hvid Hres.
  unfold ask_question, http_errors, try_except, bind.
  rewrite Hvid. simpl. unfold query_points.
  rewrite (with_collection_run _ w c Hc). simpl.
  rewrite with_qdrant_same by done.
  by destruct (search _ _ _ _ _).
Qed.

End BackendFacts.

(** ** The endpoints on the stub collaborators *)

Lemma replace_semantics_witness :
  let vid := lit "abc123" in
  let chunksA := [ mk_chunk "the cat sat" 0; mk_chunk "sat on the" 2;
                   mk_chunk "the mat" 4 ] in
  let chunksB := [ mk_chunk "a dog ran" 0; mk_chunk "ran off" 2 ] in
  (∀ i j, Stub.uuid4 i = Stub.uuid4 j → i = j)
  ∧ serving Stub.embed Stub.closer Stub.uuid4 Stub.yt_fetch
      Stub.yt_find_fetch Stub.groq_create Stub.collection_not_found
      Stub.started
  ∧ ∃ w1 w2,
      replace_video Stub.uuid4 Stub.collection_not_found vid Stub.url
        chunksA [ 11; 10; 7 ] Stub.started = (Ok tt, w1)
      ∧ replace_video Stub.uuid4 Stub.collection_not_found vid Stub.url
          chunksB [ 9; 7 ] w1 = (Ok tt, w2)
      ∧ size (stored_points w2 vid) = 2%nat.
Proof.
  intros vid chunksA chunksB.
  assert (∀ i j, Stub.uuid4 i = Stub.uuid4 j → i = j) as Hunique.
  { intros i j Hij. unfold Stub.uuid4 in Hij.
    apply app_inv_head in Hij. injection Hij as Hij. lia. }
  split; [exact Hunique|]. split; [apply serving_startup|].
  destruct (replace_semantics Stub.embed Stub.closer Stub.uuid4
              Stub.yt_fetch Stub.yt_find_fetch Stub.groq_create
              Stub.collection_not_found Stub.started vid
              Stub.url chunksA [ 11; 10; 7 ] Stub.url chunksB [ 9; 7 ]
              Hunique (serving_startup _ _ _ _ _ _ _ Stub.fresh))
    as (w1 & w2 & Hrun1 & Hrun2 & _ & Hsize & _).
  exists w1, w2. split; [exact Hrun1|]. split; [exact Hrun2|exact Hsize].
Defined.

Lemma processed_serving :
  serving Stub.embed Stub.closer Stub.uuid4 Stub.yt_fetch Stub.yt_find_fetch
    Stub.groq_create Stub.collection_not_found Stub.processed.
Proof. apply serving_request, serving_startup. Qed.

Lemma ask_without_content_witness :
  let request :=
    {| QuestionRequest.video_url := lit "https://youtu.be/xyz789";
       QuestionRequest.question := lit "what sat on the mat?" |} in
  serving Stub.embed Stub.closer Stub.uuid4 Stub.yt_fetch Stub.yt_find_fetch
    Stub.groq_create Stub.collection_not_found Stub.processed
  ∧ extract_video_id (QuestionRequest.video_url request) = Ok (lit "xyz789")
  ∧ stored_points Stub.processed (lit "xyz789") = ∅
  ∧ (∀ q limit,
       query_points Stub.closer Stub.collection_not_found q (lit "xyz789")
         limit Stub.processed = (Ok [], Stub.processed))
  ∧ ask_question Stub.embed Stub.closer Stub.groq_create
      Stub.collection_not_found request Stub.processed
    = (Raise (HTTPException 404
                (lit "No content found for this video. Please process the video first.")),
       Stub.processed).
Proof.
  intros request.
  assert (stored_points Stub.processed (lit "xyz789") = ∅) as Hnone
    by (vm_compute; reflexivity).
  split; [apply processed_serving|]. split; [reflexivity|].
  split; [exact Hnone|].
  apply (ask_without_content Stub.embed Stub.closer Stub.uuid4
           Stub.yt_fetch Stub.yt_find_fetch Stub.groq_create
           Stub.collection_not_found Stub.processed request (lit "xyz789")
           processed_serving eq_refl Hnone).
Defined.

Lemma delete_video_succeeds_witness :
  serving Stub.embed Stub.closer Stub.uuid4 Stub.yt_fetch Stub.yt_find_fetch
    Stub.groq_create Stub.collection_not_found Stub.processed
  ∧ ∃ w',
      delete_video Stub.collection_not_found (lit "abc123") Stub.processed
      = (Ok (lit "Video abc123 deleted successfully"), w')
      ∧ stored_points w' (lit "abc123") = ∅.
Proof.
  split; [apply processed_serving|].
  destruct (delete_video_succeeds Stub.embed Stub.closer Stub.uuid4
              Stub.yt_fetch Stub.yt_find_fetch Stub.groq_create
              Stub.collection_not_found Stub.processed (lit "abc123")
              processed_serving)
    as (w' & Hrun & Hgone & _).
  exists w'. split; [exact Hrun|exact Hgone].
Defined.

(** * Further properties of the code *)

(** ** Words and chunks *)

Lemma split_from_nonspace cur s w :
  Forall (λ c, isspace c = false) cur →
  w ∈ split_from cur s → Forall (λ c, isspace c = false) w.
Proof.
  revert cur. induction s as [|ch s IH]; intros cur Hcur; simpl.
  - destruct cur; [by intros ?%elem_of_nil|].
    by intros ->%list_elem_of_singleton.
  - destruct (isspace ch) eqn:Hch.
    + destruct cur; [by apply IH|].
      intros [->|Hw]%elem_of_cons; [done|by apply (IH [])].
    + apply IH. apply Forall_app. split; [done|]. by apply Forall_singleton.
Qed.

Lemma split_words s : Forall is_word (split s).
Proof.
  apply Forall_forall. intros w Hw. split.
  - by eapply split_from_nonempty.
  - by eapply split_from_nonspace.
Qed.

Lemma split_from_run cur w rest :
  Forall (λ c, isspace c = false) w →
  split_from cur (w ++ rest) = split_from (cur ++ w) rest.
Proof.
  revert cur. induction w as [|ch w IH]; intros cur Hw; simpl.
  - by rewrite app_nil_r.
  - apply Forall_cons in Hw as [-> Hw]. rewrite IH by done.
    by rewrite <- app_assoc.
Qed.

Lemma split_from_space cur rest :
  cur ≠ [] → split_from cur (32%N :: rest) = cur :: split_from [] rest.
Proof. by destruct cur. Qed.

Lemma split_from_end cur : cur ≠ [] → split_from cur [] = [cur].
Proof. by destruct cur. Qed.

(** Splitting the single-space join of words gives the words back. *)
Lemma split_join ws : Forall is_word ws → split (join (lit " ") ws) = ws.
Proof.
  induction ws as [|w [|w' ws] IH]; intros Hws; [done| |].
  - apply Forall_cons in Hws as [[Hne Hw] _]. unfold split.
    change (join (lit " ") [w]) with w.
    rewrite <- (app_nil_r w) at 1. rewrite split_from_run by done.
    by apply split_from_end.
  - apply Forall_cons in Hws as [[Hne Hw] Hws]. specialize (IH Hws).
    unfold split in *.
    change (join (lit " ") (w :: w' :: ws))
      with (w ++ 32%N :: join (lit " ") (w' :: ws)).
    rewrite split_from_run by done.
    rewrite split_from_space by done. by rewrite IH.
Qed.

(** The chunks of a positive stride and chunk size, one per range
    position. *)
Lemma chunk_text_elem txt c o :
  0 < c → o < c →
  ∃ chunks, chunk_text txt c o = Ok chunks
    ∧ ∀ k ch, chunks !! k = Some ch
        ↔ 0 ≤ Z.of_nat k * (c - o) < len (split txt)
          ∧ ch = chunk_at (split txt) c (Z.of_nat k * (c - o)).
Proof.
  intros Hc Hoc. destruct (chunk_text_shape txt c o Hoc) as (m & _ & -> & Hm).
  specialize (Hm Hc). eexists. split; [done|]. intros k ch.
  change (List.map ?f ?l) with (f <$> l). rewrite list_lookup_fmap.
  rewrite fmap_Some. setoid_rewrite lookup_seq. split.
  - intros (i & [-> Hi] & ->). split; [|done].
    apply range_position; lia.
  - intros [Hk ->]. exists k. split; [|done]. split; [done|].
    pose proof (range_complete (len (split txt)) (c - o) (Z.of_nat k)).
    lia.
Qed.

(** X1. A text without words (empty or whitespace only) gives no chunk,
    whatever the sizes, unless the stride is zero. *)
Theorem chunk_text_blank txt c o :
  strip_is_empty txt = true → c ≠ o → chunk_text txt c o = Ok [].
Proof.
  intros Hblank%split_nil Hco. unfold chunk_text, range. rewrite Hblank.
  destruct (Z.eqb_spec (c - o) 0); [lia|].
  unfold range_len, len. simpl. by destruct (0 <? c - o).
Qed.

Lemma chunk_text_blank_witness :
  strip_is_empty (lit "  ") = true ∧ 500 ≠ 100
  ∧ chunk_text (lit "  ") 500 100 = Ok [].
Proof.
  split; [reflexivity|]. split; [lia|].
  apply (chunk_text_blank (lit "  ") 500 100); [reflexivity|lia].
Defined.

Lemma default_chunks_count txt :
  strip_is_empty txt = false →
  ∃ chunks,
    chunk_text txt default_chunk_size default_overlap = Ok chunks
    ∧ len chunks = ceil_div (len (split txt)) 400.
Proof.
  intros Hblank.
  assert (0 < len (split txt)) as Hn.
  { destruct (split txt) eqn:Hs; [|unfold len; simpl; lia].
    apply split_nil in Hs. congruence. }
  destruct (chunk_text_shape txt default_chunk_size default_overlap)
    as (m & _ & Hshape & Hm); [done|].
  eexists. split; [exact Hshape|].
  unfold len at 1. rewrite List.length_map, length_seq, Hm by done.
  pose proof (range_len_nonneg (len (split txt))
                (default_chunk_size - default_overlap)).
  rewrite Z2Nat.id by (unfold default_chunk_size, default_overlap in *; lia).
  by apply range_len_ceil.
Qed.

(** X2. With the default sizes a text that has a word gives at least one
    chunk, and ceil(N / 400) chunks for N words. *)
Theorem default_chunks txt :
  strip_is_empty txt = false →
  ∃ chunk chunks,
    chunk_text txt default_chunk_size default_overlap = Ok (chunk :: chunks)
    ∧ len (chunk :: chunks) = ceil_div (len (split txt)) 400.
Proof.
  intros Hblank.
  destruct (chunk_text_default txt Hblank) as (chunk & chunks & Hrun).
  exists chunk, chunks. split; [done|].
  assert (0 < len (split txt)) as Hn.
  { destruct (split txt) eqn:Hs; [|unfold len; simpl; lia].
    apply split_nil in Hs. congruence. }
  destruct (chunk_text_shape txt default_chunk_size default_overlap)
    as (m & _ & Hshape & Hm); [done|].
  rewrite Hrun in Hshape. injection Hshape as ->.
  unfold len at 1. rewrite List.length_map, length_seq, Hm by done.
  pose proof (range_len_nonneg (len (split txt))
                (default_chunk_size - default_overlap)).
  rewrite Z2Nat.id by (unfold default_chunk_size, default_overlap in *; lia).
  by apply range_len_ceil.
Qed.

Lemma default_chunks_witness :
  strip_is_empty (lit "the cat sat") = false
  ∧ ∃ chunk chunks,
      chunk_text (lit "the cat sat") default_chunk_size default_overlap
      = Ok (chunk :: chunks)
      ∧ len (chunk :: chunks) = ceil_div (len (split (lit "the cat sat"))) 400.
Proof.
  split; [reflexivity|]. apply (default_chunks (lit "the cat sat")). reflexivity.
Defined.

(** The text of a chunk inside the text, split again. *)
Lemma chunk_at_split words c i :
  Forall is_word words → 0 < c → 0 ≤ i ≤ len words →
  split (text (chunk_at words c i)) = window words c i.
Proof.
  intros Hw Hc Hi. simpl. rewrite slice_window by done.
  apply split_join. by apply Forall_take, Forall_drop.
Qed.

Lemma chunk_at_has_word words c i :
  Forall is_word words → 0 < c → 0 ≤ i < len words →
  strip_is_empty (text (chunk_at words c i)) = false.
Proof.
  intros Hw Hc Hi.
  destruct (strip_is_empty (text (chunk_at words c i))) eqn:Hblank; [|done].
  apply split_nil in Hblank. rewrite chunk_at_split in Hblank by (done || lia).
  apply (f_equal length) in Hblank. unfold window, len in *.
  rewrite length_take, length_drop in Hblank. simpl in Hblank. lia.
Qed.

(** X3. For a positive chunk size C and an overlap O < C, splitting the
    text of a chunk again gives exactly the words of its window, so a
    chunk has min(C, N - start) words: C words unless the text ends
    before. *)
Theorem chunk_words txt c o :
  0 < c → o < c →
  ∃ chunks, chunk_text txt c o = Ok chunks
    ∧ ∀ ch, ch ∈ chunks →
        split (text ch) = window (split txt) c (start_idx ch)
        ∧ len (split (text ch))
          = Z.min c (len (split txt) - start_idx ch).
Proof.
  intros Hc Hoc.
  destruct (chunk_text_elem txt c o Hc Hoc) as (chunks & Hrun & Helem).
  exists chunks. split; [done|].
  intros ch (k & [Hk ->]%Helem)%list_elem_of_lookup. simpl.
  rewrite slice_window by lia. fold (window (split txt) c (Z.of_nat k * (c - o))).
  rewrite split_join.
  - split; [done|]. unfold window, len in *.
    rewrite length_take, length_drop. lia.
  - unfold window. apply Forall_take, Forall_drop, split_words.
Qed.

Lemma chunk_words_witness :
  0 < 3 ∧ 1 < 3
  ∧ ∃ chunks, chunk_text (lit "the cat sat on the mat") 3 1 = Ok chunks
    ∧ ∀ ch, ch ∈ chunks →
        split (text ch)
        = window (split (lit "the cat sat on the mat")) 3 (start_idx ch)
        ∧ len (split (text ch))
          = Z.min 3 (len (split (lit "the cat sat on the mat"))
                     - start_idx ch).
Proof.
  split; [lia|]. split; [lia|].
  apply (chunk_words (lit "the cat sat on the mat") 3 1); lia.
Defined.

(** X4. For sizes 0 <= O < C, the first O words of every chunk after the
    first are the words of the chunk before it from its word C - O on:
    consecutive chunks overlap in O words (fewer where the text ends). *)
Theorem chunk_overlap txt c o :
  0 ≤ o < c →
  ∃ chunks, chunk_text txt c o = Ok chunks
    ∧ ∀ k prev next,
        chunks !! k = Some prev → chunks !! S k = Some next →
        take (Z.to_nat o) (split (text next))
        = drop (Z.to_nat (c - o)) (split (text prev)).
Proof.
  intros [Ho Hoc]. assert (0 < c) as Hc by lia.
  destruct (chunk_text_elem txt c o Hc Hoc) as (chunks & Hrun & Helem).
  exists chunks. split; [done|].
  intros k prev next [Hk ->]%Helem [Hk' ->]%Helem. simpl.
  rewrite !slice_window by lia.
  rewrite !split_join
    by (apply Forall_take, Forall_drop, split_words).
  rewrite take_take.
  replace (Z.to_nat c) with (Z.to_nat (c - o) + Z.to_nat o)%nat at 2 by lia.
  rewrite <- take_drop_commute, drop_drop. f_equal; [lia|]. f_equal. lia.
Qed.

Lemma chunk_overlap_witness :
  0 ≤ 1 < 3
  ∧ ∃ chunks, chunk_text (lit "the cat sat on the mat") 3 1 = Ok chunks
    ∧ ∀ k prev next,
        chunks !! k = Some prev → chunks !! S k = Some next →
        take (Z.to_nat 1) (split (text next))
        = drop (Z.to_nat (3 - 1)) (split (text prev)).
Proof.
  split; [lia|].
  apply (chunk_overlap (lit "the cat sat on the mat") 3 1). lia.
Defined.

Lemma concat_strides {A} (l : list A) s n :
  concat ((λ k, take s (drop (k * s) l)) <$> seq 0 n) = take (n * s) l.
Proof.
  induction n as [|n IH]; [done|].
  rewrite seq_S, fmap_app, concat_app, IH. simpl. rewrite app_nil_r.
  rewrite take_take_drop. f_equal. lia.
Qed.

(** X24. For sizes 0 <= O < C the chunks carry the whole text in order:
    the first C - O words of every chunk, one chunk after the other, are
    the words of the text. *)
Theorem chunks_rebuild_text txt c o :
  0 ≤ o < c →
  ∃ chunks, chunk_text txt c o = Ok chunks
    ∧ concat ((λ ch, take (Z.to_nat (c - o)) (split (text ch))) <$> chunks)
      = split txt.
Proof.
  intros [Ho Hoc]. assert (0 < c) as Hc by lia.
  destruct (chunk_text_shape txt c o Hoc) as (m & _ & -> & Hm).
  specialize (Hm Hc). eexists. split; [done|].
  change (List.map ?f ?l) with (f <$> l). rewrite <- list_fmap_compose.
  set (words := split txt) in *. set (s := Z.to_nat (c - o)).
  pose proof (split_words txt) as Hw. fold words in Hw.
  assert (∀ k, (k < m)%nat →
            take s (split (text (chunk_at words c (Z.of_nat k * (c - o)))))
            = take s (drop (k * s) words)) as Hchunk.
  { intros k Hk.
    pose proof (range_position (len words) (c - o) k) as Hpos.
    rewrite chunk_at_split by (done || lia). unfold window.
    rewrite take_take. f_equal; [lia|]. f_equal. nia. }
  transitivity (concat ((λ k, take s (drop (k * s) words)) <$> seq 0 m)).
  { f_equal. apply list_fmap_ext. intros i k [-> Hk]%lookup_seq. simpl.
    by apply Hchunk. }
  rewrite concat_strides. apply take_ge.
  subst m. destruct (decide (len words ≤ 0)) as [Hn|Hn].
  { unfold len in Hn. lia. }
  rewrite range_len_ceil by lia.
  assert (len words ≤ ceil_div (len words) (c - o) * (c - o)) as Hceil.
  { pose proof (proj1 (ceil_div_spec (len words) (c - o) _ ltac:(lia))
                  eq_refl). lia. }
  assert (0 ≤ ceil_div (len words) (c - o)).
  { unfold ceil_div. apply Z.div_pos; lia. }
  unfold len in *. subst s. nia.
Qed.

Lemma chunks_rebuild_text_witness :
  0 ≤ 1 < 3
  ∧ ∃ chunks, chunk_text (lit "the cat sat on the mat") 3 1 = Ok chunks
    ∧ concat ((λ ch, take (Z.to_nat (3 - 1)) (split (text ch))) <$> chunks)
      = split (lit "the cat sat on the mat").
Proof.
  split; [lia|].
  apply (chunks_rebuild_text (lit "the cat sat on the mat") 3 1). lia.
Defined.

(** ** The resolver on arbitrary references *)

Lemma strip_prefix_Some p s rest : strip_prefix p s = Some rest → s = p ++ rest.
Proof.
  revert s. induction p as [|a p IH]; intros s; simpl.
  - by intros [= ->].
  - destruct s as [|b s]; [done|].
    destruct (N.eqb_spec a b) as [->|]; [|done].
    intros ->%IH. done.
Qed.

Lemma strip_prefix_app p rest : strip_prefix p (p ++ rest) = Some rest.
Proof.
  induction p as [|a p IH]; [done|]. simpl. by rewrite N.eqb_refl.
Qed.

(** The captured run is in the class, and what follows it is not. *)
Lemma take_class_spec pat s :
  ∃ rest, s = take_class pat s ++ rest
          ∧ Forall (λ c, in_class pat c = true) (take_class pat s)
          ∧ match rest with
            | [] => True
            | c :: _ => in_class pat c = false
            end.
Proof.
  induction s as [|c s (rest & Hs & Hin & Hrest)]; simpl.
  - by exists [].
  - destruct (in_class pat c) eqn:Hc.
    + exists rest. split; [simpl; by f_equal|]. split; [|done].
      by apply Forall_cons.
    + exists (c :: s). by repeat split.
Qed.

Lemma take_class_app pat g rest :
  Forall (λ c, in_class pat c = true) g →
  match rest with [] => True | c :: _ => in_class pat c = false end →
  take_class pat (g ++ rest) = g.
Proof.
  intros Hg Hrest. induction Hg as [|c g Hc _ IH]; simpl.
  - destruct rest as [|c rest]; [done|]. simpl. by rewrite Hrest.
  - by rewrite Hc, IH.
Qed.

Lemma match_here_Some pat alts s g :
  match_here pat alts s = Some g →
  ∃ p rest, p ∈ alts ∧ s = p ++ g ++ rest
            ∧ g ≠ []
            ∧ Forall (λ c, in_class pat c = true) g
            ∧ match rest with
              | [] => True
              | c :: _ => in_class pat c = false
              end.
Proof.
  induction alts as [|p alts IH]; simpl; [done|].
  assert (match_here pat alts s = Some g →
          ∃ p0 rest, p0 ∈ p :: alts ∧ s = p0 ++ g ++ rest ∧ g ≠ []
            ∧ Forall (λ c, in_class pat c = true) g
            ∧ match rest with
              | [] => True
              | c :: _ => in_class pat c = false
              end) as Hlater.
  { intros (p0 & rest & Hp0 & ?)%IH. exists p0, rest. split; [by right|done]. }
  destruct (strip_prefix p s) as [after|] eqn:Hp; [|done].
  apply strip_prefix_Some in Hp as ->.
  destruct (take_class_spec pat after) as (rest & Hafter & Hin & Hrest).
  destruct (take_class pat after) as [|c run] eqn:Hrun; [done|].
  intros [= <-]. exists p, rest. split; [by left|].
  split; [by rewrite Hafter|]. by repeat split.
Qed.

Lemma re_search_Some pat s g :
  re_search pat s = Some g →
  ∃ before p rest, p ∈ alternatives pat ∧ s = before ++ p ++ g ++ rest
            ∧ g ≠ []
            ∧ Forall (λ c, in_class pat c = true) g
            ∧ match rest with
              | [] => True
              | c :: _ => in_class pat c = false
              end.
Proof.
  induction s as [|c s IH]; simpl.
  - destruct (match_here pat (alternatives pat) []) eqn:Hm; [|done].
    intros [= ->]. apply match_here_Some in Hm as (p & rest & ? & ? & ?).
    by exists [], p, rest.
  - destruct (match_here pat (alternatives pat) (c :: s)) eqn:Hm.
    + intros [= ->]. apply match_here_Some in Hm as (p & rest & ? & ? & ?).
      by exists [], p, rest.
    + intros (before & p & rest & ? & -> & ?)%IH.
      by exists (c :: before), p, rest.
Qed.

(** The class of the captured group. *)
Lemma in_class_youtube c :
  in_class youtube_pattern c = true ↔ c ∉ [ 38; 10; 63; 35 ]%N.
Proof.
  unfold in_class. simpl. rewrite !not_elem_of_cons.
  destruct (N.eqb_spec c 38), (N.eqb_spec c 10), (N.eqb_spec c 63),
    (N.eqb_spec c 35); simpl; split; try done;
    try (by intros (? & ? & ? & ? & _)).
  intros _. repeat split; try done. apply not_elem_of_nil.
Qed.

(** X5. An identifier the resolver returns is not empty, has none of the
    code points & newline ? #, and stands in the reference right after
    one of the three URL forms, up to the end of the reference or the
    first of those code points. *)
Theorem extract_video_id_shape url vid :
  extract_video_id url = Ok vid →
  vid ≠ []
  ∧ Forall (λ c, c ∉ [ 38; 10; 63; 35 ]%N) vid
  ∧ ∃ before form rest,
      form ∈ [ lit "youtube.com/watch?v="; lit "youtu.be/";
               lit "youtube.com/embed/" ]
      ∧ url = before ++ form ++ vid ++ rest
      ∧ match rest with
        | [] => True
        | c :: _ => c ∈ [ 38; 10; 63; 35 ]%N
        end.
Proof.
  unfold extract_video_id, patterns, first_match.
  destruct (re_search youtube_pattern url) as [g|] eqn:Hs; [|done].
  intros [= <-].
  apply re_search_Some in Hs
    as (before & form & rest & Hform & Hurl & Hne & Hin & Hrest).
  pose proof in_class_youtube as Hclass.
  split; [done|]. split.
  - eapply Forall_impl; [exact Hin|]. intros c. apply Hclass.
  - exists before, form, rest. split; [done|]. split; [done|].
    destruct rest as [|c rest]; [done|].
    destruct (decide (c ∈ [ 38; 10; 63; 35 ]%N)) as [|Hc]; [done|].
    apply Hclass in Hc. congruence.
Qed.

Lemma extract_video_id_shape_witness :
  extract_video_id (lit "https://www.youtube.com/watch?v=abc123&t=10s")
  = Ok (lit "abc123")
  ∧ lit "abc123" ≠ []
  ∧ Forall (λ c, c ∉ [ 38; 10; 63; 35 ]%N) (lit "abc123").
Proof.
  split; [reflexivity|].
  destruct (extract_video_id_shape
              (lit "https://www.youtube.com/watch?v=abc123&t=10s")
              (lit "abc123") eq_refl) as (Hne & Hin & _).
  split; [exact Hne|exact Hin].
Defined.

(** X6. Resolving a reference built from an identifier gives the
    identifier back: for every non-empty identifier without & newline ?
    #, the watch, short-link and embed URLs of it resolve to it, also
    when further parameters follow after one of those code points. *)
Theorem extract_video_id_built vid rest :
  vid ≠ [] →
  Forall (λ c, c ∉ [ 38; 10; 63; 35 ]%N) vid →
  match rest with
  | [] => True
  | c :: _ => c ∈ [ 38; 10; 63; 35 ]%N
  end →
  extract_video_id (lit "https://www.youtube.com/watch?v=" ++ vid ++ rest)
  = Ok vid
  ∧ extract_video_id (lit "https://youtu.be/" ++ vid ++ rest) = Ok vid
  ∧ extract_video_id (lit "https://www.youtube.com/embed/" ++ vid ++ rest)
    = Ok vid.
Proof.
  intros Hne Hvid Hrest.
  pose proof in_class_youtube as Hclass.
  assert (take_class youtube_pattern (vid ++ rest) = vid) as Hrun.
  { apply take_class_app.
    - eapply Forall_impl; [exact Hvid|]. intros c. apply Hclass.
    - destruct rest as [|c rest]; [done|].
      destruct (in_class youtube_pattern c) eqn:Hc; [|done].
      apply Hclass in Hc. done. }
  cbv -[take_class app] in Hrun.
  unfold extract_video_id, patterns, first_match.
  repeat split;
    repeat match goal with
      | |- context [lit ?s] =>
          let l := eval vm_compute in (lit s) in change (lit s) with l
      end;
    cbn [app]; cbv -[take_class app]; rewrite Hrun; by destruct vid.
Qed.

Lemma extract_video_id_built_witness :
  lit "abc123" ≠ []
  ∧ extract_video_id (lit "https://youtu.be/" ++ lit "abc123" ++ lit "?t=5")
    = Ok (lit "abc123").
Proof.
  split; [discriminate|].
  apply (extract_video_id_built (lit "abc123") (lit "?t=5")).
  - discriminate.
  - repeat constructor; intros Hc;
      repeat (apply elem_of_cons in Hc as [Hc|Hc]; [discriminate Hc|]);
      by apply elem_of_nil in Hc.
  - apply elem_of_cons. right. apply elem_of_cons. right.
    apply elem_of_cons. by left.
Defined.

(** ** The endpoints on arbitrary requests *)

Section EndpointFacts.
Context {Vector : Type}.
Variable embed : str -> Vector.
Variable closer : Vector -> Vector -> Vector -> bool.
Variable uuid4 : nat -> str.
Variable yt_fetch : str -> list str -> result pyexn (list str).
Variable yt_find_fetch : str -> list str -> result pyexn (list str).
Variable groq_create : ChatRequest.t -> result pyexn str.
Variable collection_not_found : pyexn.

Local Abbreviation point := (@PointStruct Vector).
Local Abbreviation M := (@M Vector).
Local Abbreviation serving :=
  (@serving Vector embed closer uuid4 yt_fetch yt_find_fetch groq_create
     collection_not_found).
Local Abbreviation handle :=
  (@handle Vector embed closer uuid4 yt_fetch yt_find_fetch groq_create
     collection_not_found).
Local Abbreviation process_video_with := (@process_video Vector embed uuid4).
Local Abbreviation process_video :=
  (process_video_with yt_fetch yt_find_fetch collection_not_found).
Local Abbreviation ask_question :=
  (@ask_question Vector embed closer groq_create collection_not_found).
Local Abbreviation delete_video :=
  (@delete_video Vector collection_not_found).
Local Abbreviation replace_video :=
  (@replace_video Vector uuid4 collection_not_found).
Local Abbreviation query_points :=
  (@query_points Vector closer collection_not_found).
Local Abbreviation startup_event :=
  (@startup_event Vector collection_not_found).
Local Abbreviation fetch_transcript_with := (@fetch_transcript Vector).
Local Abbreviation fetch_transcript :=
  (fetch_transcript_with yt_fetch yt_find_fetch).

Implicit Types (w : @World Vector) (c : gmap str point) (p : point)
  (pairs : list (Z * (Chunk * Vector))) (embeddings : list Vector).

(** *** Startup *)

(** X7. [create_collection_if_not_exists] never fails; it creates an empty
    collection when there is none, leaves an existing collection with all
    its points as it is, and running it a second time changes nothing. *)
Theorem create_collection_idempotent w :
  ∃ w1,
    create_collection_if_not_exists collection_not_found w = (Ok tt, w1)
    ∧ (qdrant w = None → w1 = with_qdrant ∅ w)
    ∧ (is_Some (qdrant w) → w1 = w)
    ∧ create_collection_if_not_exists collection_not_found w1 = (Ok tt, w1).
Proof.
  unfold create_collection_if_not_exists, try_except, get_collection,
    with_collection, create_collection.
  destruct w as [[c|] n g]; simpl; eexists; repeat split; try done;
    try (by intros [? [=]]).
Qed.

(** X8. Once the startup event has run, the collection exists after every
    sequence of requests, whatever their responses. *)
Theorem collection_survives w0 (requests : list request) :
  ∃ c, qdrant (foldl (λ w req, handle req w) (startup_event w0).2 requests)
       = Some c.
Proof.
  induction requests as [|req requests IH] using rev_ind.
  - apply (startup_creates collection_not_found).
  - rewrite foldl_app. simpl. destruct req as [r|r|vid]; simpl.
    + by apply (keeps_process_video embed uuid4 yt_fetch yt_find_fetch
                  collection_not_found).
    + by apply (keeps_ask_question embed closer groq_create
                  collection_not_found).
    + by apply (keeps_delete_video collection_not_found).
Qed.

(** *** Requests that are turned down *)

Lemma fetch_transcript_run vid w :
  fetch_transcript vid w
  = (match yt_fetch vid languages with
     | Ok items => Ok (join (lit " ") items)
     | Raise e =>
         match find_transcript_texts yt_find_fetch vid with
         | Ok items => Ok (join (lit " ") items)
         | Raise e2 =>
             Raise (HTTPException 400
                      (lit "Failed to fetch transcript: " ++ exn_str e
                       ++ lit ". Alternative method also failed: "
                       ++ exn_str e2))
         end
     end, w).
Proof.
  unfold fetch_transcript. destruct (yt_fetch _ _); [done|].
  by destruct (find_transcript_texts _ _).
Qed.

(** X9. A reference the resolver rejects is answered with status 400 and
    the detail "Invalid YouTube URL" by both POST endpoints, and the
    world stays as it was: nothing is fetched, stored or asked. *)
Theorem invalid_reference_rejected url question e w :
  extract_video_id url = Raise e →
  process_video {| VideoRequest.video_url := url |} w
  = (Raise (HTTPException 400 (lit "Invalid YouTube URL")), w)
  ∧ ask_question {| QuestionRequest.video_url := url;
                    QuestionRequest.question := question |} w
    = (Raise (HTTPException 400 (lit "Invalid YouTube URL")), w).
Proof.
  intros He. pose proof (extract_video_id_raises _ _ He) as ->.
  unfold process_video, ask_question, http_errors, try_except, bind.
  simpl. by rewrite He.
Qed.

(** X10. When both the transcript fetch and the alternative path fail,
    [process_video] answers with status 400 and a detail that carries both
    error messages, and the world stays as it was: the points stored for
    the video are kept. *)
Theorem transcript_unavailable request vid e e2 w :
  extract_video_id (VideoRequest.video_url request) = Ok vid →
  yt_fetch vid languages = Raise e →
  yt_find_fetch vid languages = Raise e2 →
  process_video request w
  = (Raise (HTTPException 400
              (lit "Failed to fetch transcript: " ++ exn_str e
               ++ lit ". Alternative method also failed: " ++ exn_str e2)),
     w).
Proof.
  intros Hvid He He2.
  unfold process_video, http_errors, try_except, bind.
  rewrite Hvid. unfold lift, ret. cbv beta iota.
  rewrite fetch_transcript_run, He. unfold find_transcript_texts.
  by rewrite He2.
Qed.

(** X11. When the fetch fails, [process_video] never gets a transcript
    from the alternative path and stores nothing: it answers with status
    400 and leaves the world as it was.  The alternative's own error is
    reported beside the first; a transcript with snippets ends in the
    [TypeError] of subscripting a snippet; one without snippets is
    turned down as empty. *)
Theorem transcript_fallback request vid e w :
  extract_video_id (VideoRequest.video_url request) = Ok vid →
  yt_fetch vid languages = Raise e →
  process_video request w
  = (Raise (HTTPException 400
              match yt_find_fetch vid languages with
              | Ok [] => lit "Transcript is empty"
              | Ok (_ :: _) =>
                  lit "Failed to fetch transcript: " ++ exn_str e
                  ++ lit ". Alternative method also failed: 'FetchedTranscriptSnippet' object is not subscriptable"
              | Raise e2 =>
                  lit "Failed to fetch transcript: " ++ exn_str e
                  ++ lit ". Alternative method also failed: " ++ exn_str e2
              end),
     w).
Proof.
  intros Hvid He.
  unfold process_video, http_errors, try_except, bind.
  rewrite Hvid. unfold lift, ret. cbv beta iota.
  rewrite fetch_transcript_run, He. unfold find_transcript_texts.
  by destruct (yt_find_fetch vid languages) as [[|snippet snippets]|e2].
Qed.

(** X12. A transcript without any word is answered with status 400 and
    the detail "Transcript is empty", before anything is deleted: the
    world stays as it was. *)
Theorem blank_transcript_rejected request vid txt w :
  extract_video_id (VideoRequest.video_url request) = Ok vid →
  fetch_transcript vid w = (Ok txt, w) →
  strip_is_empty txt = true →
  process_video request w
  = (Raise (HTTPException 400 (lit "Transcript is empty")), w).
Proof.
  intros Hvid Htxt Hblank.
  unfold process_video, http_errors, try_except, bind.
  rewrite Hvid. unfold lift, ret. cbv beta iota.
  rewrite Htxt. cbv beta iota. by rewrite Hblank.
Qed.

(** *** A video that is processed *)

(** The response of a successful [process_video]. *)
Lemma process_video_run request vid txt chunks w c :
  qdrant w = Some c →
  extract_video_id (VideoRequest.video_url request) = Ok vid →
  fetch_transcript vid w = (Ok txt, w) →
  strip_is_empty txt = false →
  chunk_text txt default_chunk_size default_overlap = Ok chunks →
  process_video request w
  = (Ok {| ProcessResponse.message := lit "Video processed successfully";
           ProcessResponse.video_id := vid;
           ProcessResponse.chunks_created := len chunks;
           ProcessResponse.transcript_length := len txt |},
     with_qdrant
       (upsert_all
          (points_from uuid4 vid (VideoRequest.video_url request)
             (uuid_calls w)
             (enumerate (zip chunks (List.map embed (List.map text chunks)))))
          (filter (λ kp, ¬ matches vid kp.2) c))
       (with_uuids
          (length
             (enumerate (zip chunks (List.map embed (List.map text chunks)))))
          w)).
Proof.
  intros Hc Hvid Htxt Hblank Hchunks.
  destruct (chunk_text_default _ Hblank) as (chunk & rest & Hrun).
  rewrite Hchunks in Hrun. injection Hrun as ->.
  unfold process_video, http_errors, try_except, bind.
  rewrite Hvid. unfold lift, ret. cbv beta iota.
  rewrite Htxt. cbv beta iota. rewrite Hblank, Hchunks.
  change (negb (truthy (chunk :: rest))) with false. cbv beta iota.
  by rewrite (replace_video_run uuid4 collection_not_found _ _ _ _ w c Hc).
Qed.

Lemma zip_embeddings_lookup (chunks : list Chunk) k ch e :
  zip chunks (List.map embed (List.map text chunks)) !! k = Some (ch, e)
  ↔ chunks !! k = Some ch ∧ e = embed (text ch).
Proof.
  revert k. induction chunks as [|x chunks IH]; intros k; simpl.
  - rewrite !lookup_nil. split; [done|by intros [? _]].
  - destruct k as [|k]; simpl; [|apply IH]. split.
    + by intros [= <- <-].
    + by intros [[= <-] ->].
Qed.

Lemma zip_embeddings_length (chunks : list Chunk) :
  length (zip chunks (List.map embed (List.map text chunks))) = length chunks.
Proof. induction chunks as [|x chunks IH]; simpl; by rewrite ?IH. Qed.

(** The points the video owns after its chunks were stored. *)
Lemma stored_after_process vid url (chunks : list Chunk) n c key p :
  (∀ i j, uuid4 i = uuid4 j → i = j) →
  filter (λ kp, matches vid kp.2)
    (upsert_all
       (points_from uuid4 vid url n
          (enumerate (zip chunks (List.map embed (List.map text chunks)))))
       (filter (λ kp, ¬ matches vid kp.2) c)) !! key = Some p
  ↔ ∃ k ch, chunks !! k = Some ch
            ∧ key = uuid4 (n + k)
            ∧ p = make_point vid url key (Z.of_nat k) ch (embed (text ch)).
Proof.
  intros Huniq. rewrite replaced_lookup by done. unfold enumerate.
  setoid_rewrite enumerate_from_lookup. split.
  - intros (k & idx & ch & e & Hk & -> & ->).
    apply fmap_Some in Hk as ([ch' e'] & Hk & [= -> <- <-]).
    apply zip_embeddings_lookup in Hk as [Hk ->]. by exists k, ch.
  - intros (k & ch & Hk & -> & ->).
    exists k, (0 + Z.of_nat k), ch, (embed (text ch)).
    split; [|done].
    assert (zip chunks (List.map embed (List.map text chunks)) !! k
            = Some (ch, embed (text ch))) as ->
      by by apply zip_embeddings_lookup.
    done.
Qed.

(** X13. With identifiers that do not repeat, a serving world and a
    transcript that has a word, [process_video] succeeds; it reports the
    video identifier, ceil(N / 400) chunks for the N words of the
    transcript and the length of the transcript; afterwards the video
    owns exactly one point per chunk, the k-th under the k-th new
    identifier with the chunk's text, position k and the request's
    reference. *)
Theorem process_video_success request vid txt w :
  (∀ i j, uuid4 i = uuid4 j → i = j) →
  serving w →
  extract_video_id (VideoRequest.video_url request) = Ok vid →
  fetch_transcript vid w = (Ok txt, w) →
  strip_is_empty txt = false →
  ∃ chunks w',
    chunk_text txt default_chunk_size default_overlap = Ok chunks
    ∧ process_video request w
      = (Ok {| ProcessResponse.message := lit "Video processed successfully";
               ProcessResponse.video_id := vid;
               ProcessResponse.chunks_created :=
                 ceil_div (len (split txt)) 400;
               ProcessResponse.transcript_length := len txt |}, w')
    ∧ len chunks = ceil_div (len (split txt)) 400
    ∧ size (stored_points w' vid) = length chunks
    ∧ uuid_calls w' = (uuid_calls w + length chunks)%nat
    ∧ ∀ key p,
        stored_points w' vid !! key = Some p
        ↔ ∃ k ch, chunks !! k = Some ch
                  ∧ key = uuid4 (uuid_calls w + k)
                  ∧ p = {| id := key;
                           vector := embed (text ch);
                           payload :=
                             {| Payload.video_id := vid;
                                Payload.text := text ch;
                                Payload.chunk_index := Z.of_nat k;
                                Payload.video_url :=
                                  VideoRequest.video_url request |} |}.
Proof.
  intros Huniq [c Hc]%(serving_collection embed closer uuid4 yt_fetch
                         yt_find_fetch groq_create collection_not_found)
    Hvid Htxt Hblank.
  destruct (default_chunks_count txt Hblank) as (chunks & Hchunks & Hlen).
  exists chunks. eexists. split; [done|]. split.
  { rewrite <- Hlen. by apply (process_video_run _ _ _ _ _ c). }
  split; [done|]. unfold stored_points. simpl.
  split; [|split].
  - rewrite replaced_size by done. unfold enumerate.
    by rewrite enumerate_from_length, zip_embeddings_length.
  - unfold enumerate. by rewrite enumerate_from_length, zip_embeddings_length.
  - intros key p.
    exact (stored_after_process vid (VideoRequest.video_url request) chunks
             (uuid_calls w) c key p Huniq).
Qed.

(** *** What a request does to the world *)

(** The three outcomes of [process_video]: turned down with status 400
    and the world untouched; without a collection, an error after
    identifiers were drawn; or success, with the points of the video
    replaced by those of the transcript's chunks. *)
Lemma process_video_cases request w :
  (∃ detail,
     process_video request w = (Raise (HTTPException 400 detail), w))
  ∨ (qdrant w = None
     ∧ ∃ n code detail,
         code ∈ [ 400; 500 ]
         ∧ process_video request w
           = (Raise (HTTPException code detail), with_uuids n w))
  ∨ ∃ c vid txt chunks,
      qdrant w = Some c
      ∧ extract_video_id (VideoRequest.video_url request) = Ok vid
      ∧ fetch_transcript vid w = (Ok txt, w)
      ∧ strip_is_empty txt = false
      ∧ chunk_text txt default_chunk_size default_overlap = Ok chunks
      ∧ process_video request w
        = (Ok {| ProcessResponse.message :=
                   lit "Video processed successfully";
                 ProcessResponse.video_id := vid;
                 ProcessResponse.chunks_created := len chunks;
                 ProcessResponse.transcript_length := len txt |},
           with_qdrant
             (upsert_all
                (points_from uuid4 vid (VideoRequest.video_url request)
                   (uuid_calls w)
                   (enumerate
                      (zip chunks (List.map embed (List.map text chunks)))))
                (filter (λ kp, ¬ matches vid kp.2) c))
             (with_uuids
                (length
                   (enumerate
                      (zip chunks (List.map embed (List.map text chunks)))))
                w)).
Proof.
  destruct (extract_video_id (VideoRequest.video_url request))
    as [vid|e] eqn:Hvid.
  2:{ left. pose proof (extract_video_id_raises _ _ Hvid) as ->.
      eexists. unfold process_video, http_errors, try_except, bind.
      by rewrite Hvid. }
  assert (∀ txt, fetch_transcript vid w = (Ok txt, w) →
    (∃ detail,
       process_video request w = (Raise (HTTPException 400 detail), w))
    ∨ (qdrant w = None
       ∧ ∃ n code detail,
           code ∈ [ 400; 500 ]
           ∧ process_video request w
             = (Raise (HTTPException code detail), with_uuids n w))
    ∨ ∃ c vid0 txt0 chunks,
        qdrant w = Some c
        ∧ @Ok pyexn str vid = Ok vid0
        ∧ fetch_transcript vid0 w = (Ok txt0, w)
        ∧ strip_is_empty txt0 = false
        ∧ chunk_text txt0 default_chunk_size default_overlap = Ok chunks
        ∧ process_video request w
          = (Ok {| ProcessResponse.message :=
                     lit "Video processed successfully";
                   ProcessResponse.video_id := vid0;
                   ProcessResponse.chunks_created := len chunks;
                   ProcessResponse.transcript_length := len txt0 |},
             with_qdrant
               (upsert_all
                  (points_from uuid4 vid0 (VideoRequest.video_url request)
                     (uuid_calls w)
                     (enumerate
                        (zip chunks (List.map embed (List.map text chunks)))))
                  (filter (λ kp, ¬ matches vid0 kp.2) c))
               (with_uuids
                  (length
                     (enumerate
                        (zip chunks
                           (List.map embed (List.map text chunks)))))
                  w))) as Hfetched.
  { intros txt Hfetch.
    destruct (strip_is_empty txt) eqn:Hblank.
    { left. eexists.
      unfold process_video, http_errors, try_except, bind.
      rewrite Hvid. unfold lift, ret. cbv beta iota.
      rewrite Hfetch. cbv beta iota. by rewrite Hblank. }
    destruct (chunk_text_default _ Hblank) as (chunk & rest & Hchunks).
    destruct (qdrant w) as [c|] eqn:Hc.
    - right. right. exists c, vid, txt, (chunk :: rest).
      repeat split; try done.
      by rewrite (process_video_run _ vid _ _ w c Hc Hvid Hfetch Hblank Hchunks).
    - right. left. split; [done|].
      exists (length (enumerate
                (zip (chunk :: rest)
                   (List.map embed (List.map text (chunk :: rest)))))).
      unfold process_video, http_errors, try_except, bind.
      rewrite Hvid. unfold lift, ret. cbv beta iota.
      rewrite Hfetch. cbv beta iota. rewrite Hblank, Hchunks.
      change (negb (truthy (chunk :: rest))) with false. cbv beta iota.
      unfold replace_video, bind, try_except, delete_points, upsert,
        with_collection.
      rewrite Hc. unfold ret. cbv beta iota. rewrite make_points_run.
      cbv beta iota. simpl qdrant. rewrite Hc.
      destruct collection_not_found as [msg|msg].
      + exists 400, msg. split; [by left|done].
      + eexists 500, _. split; [right; by left|done]. }
  pose proof (fetch_transcript_run vid w) as Hfetch.
  destruct (yt_fetch vid languages) as [items|e] eqn:He;
    [by apply (Hfetched _ Hfetch)|].
  destruct (find_transcript_texts yt_find_fetch vid) as [items|e2] eqn:He2;
    [by apply (Hfetched _ Hfetch)|].
  left. eexists.
  unfold process_video, http_errors, try_except, bind.
  rewrite Hvid. unfold lift, ret. cbv beta iota. by rewrite Hfetch.
Qed.

Lemma upsert_all_lookup_inv (points : list point) c key p :
  upsert_all points c !! key = Some p →
  (p ∈ points ∧ id p = key) ∨ c !! key = Some p.
Proof.
  revert c. induction points as [|q points IH]; intros c; [by right|].
  change (upsert_all (q :: points) c)
    with (upsert_all points (<[id q := q]> c)).
  intros [[Hp Hid]|Hc]%IH.
  - left. split; [by right|done].
  - destruct (decide (id q = key)) as [<-|Hne].
    + rewrite lookup_insert_eq in Hc. injection Hc as <-.
      left. split; [by left|done].
    + rewrite lookup_insert_ne in Hc by done. by right.
Qed.

Lemma ask_question_world request w :
  ∃ calls,
    (length calls ≤ 1)%nat
    ∧ (ask_question request w).2
      = {| qdrant := qdrant w;
           uuid_calls := uuid_calls w;
           groq_calls := groq_calls w ++ calls |}
    ∧ (∀ resp, (ask_question request w).1 = Ok resp → length calls = 1%nat)
    ∧ (∀ detail,
         (ask_question request w).1 = Raise (HTTPException 404 detail) →
         calls = []).
Proof.
  assert ({| qdrant := qdrant w; uuid_calls := uuid_calls w;
             groq_calls := groq_calls w ++ [] |} = w) as Hsame
    by (destruct w; simpl; by rewrite app_nil_r).
  unfold ask_question, http_errors, try_except, bind.
  destruct (extract_video_id _) as [vid|[msg|msg]]; simpl;
    try (exists []; split; [simpl; lia|by rewrite Hsame]).
  unfold query_points, with_collection.
  destruct (qdrant w) as [c|] eqn:Hc; simpl.
  2:{ exists []. split; [simpl; lia|]. rewrite Hsame.
      by destruct collection_not_found. }
  destruct (search _ _ _ _ _) as [|r results]; simpl.
  { exists []. split; [simpl; lia|]. rewrite Hsame.
    split; [by apply with_qdrant_same|done]. }
  unfold compose_answer, bind, chat_completion. simpl.
  eexists [_]. split; [simpl; lia|].
  by destruct (groq_create _) as [answer|[msg|msg]].
Qed.

Lemma delete_video_world vid w :
  (delete_video vid w).2
  = match qdrant w with
    | Some c => with_qdrant (filter (λ kp, ¬ matches vid kp.2) c) w
    | None => w
    end.
Proof.
  destruct (qdrant w) as [c|] eqn:Hc.
  - by rewrite (delete_video_run collection_not_found vid w c Hc).
  - unfold delete_video, try_except, bind, delete_points, with_collection.
    by rewrite Hc.
Qed.

(** X14. Every request keeps the stored points well-formed: if each
    stored point is kept under its own id, an identifier this process
    drew, with a chunk text that has a word, a position that is not
    negative and a reference that resolves to its video, the same holds
    after any request, whatever its response. *)
Theorem consistent_preserved req w :
  consistent uuid4 w → consistent uuid4 (handle req w).
Proof.
  intros Hw. destruct req as [request|request|vid]; simpl.
  - destruct (process_video_cases request w)
      as [[? ->]|[[Hnone (n & ? & ? & _ & ->)]
                 |(c & vid & txt & chunks & Hc & Hvid & _ & Hblank
                   & Hchunks & ->)]]; [done| |].
    + intros key p. simpl. rewrite Hnone. simpl. by rewrite lookup_empty.
    + intros key p. simpl. intros [[Hp Hid]|Hold]%upsert_all_lookup_inv.
      * apply list_elem_of_lookup in Hp as (k & Hk).
        apply points_from_lookup in Hk as (idx & ch & e & Hk & ->).
        unfold enumerate in Hk. rewrite enumerate_from_lookup in Hk.
        apply fmap_Some in Hk as ([ch' e'] & Hk & [= -> <- <-]).
        pose proof (lookup_lt_Some _ _ _ Hk) as Hlt.
        apply zip_embeddings_lookup in Hk as [Hk ->].
        simpl in Hid. subst key. split; [done|]. split.
        { exists (uuid_calls w + k)%nat. split; [|done]. simpl.
          unfold enumerate. rewrite enumerate_from_length. lia. }
        simpl. split; [|split; [lia|done]].
        destruct (chunk_text_elem txt default_chunk_size default_overlap)
          as (chunks' & Hrun & Helem); [done..|].
        rewrite Hchunks in Hrun. injection Hrun as <-.
        apply Helem in Hk as [Hpos ->].
        apply chunk_at_has_word; [apply split_words|done|done].
      * apply map_lookup_filter_Some in Hold as [Hold _].
        destruct (Hw key p) as (? & (k & Hk & ?) & ?); [by rewrite Hc|].
        split; [done|]. split; [|done]. exists k. split; [simpl; lia|done].
  - destruct (ask_question_world request w) as (calls & _ & -> & _).
    intros key p. simpl. apply Hw.
  - rewrite delete_video_world. destruct (qdrant w) as [c|] eqn:Hc; [|done].
    intros key p. simpl. intros [Hold _]%map_lookup_filter_Some.
    apply Hw. by rewrite Hc.
Qed.

(** X15. With identifiers that do not repeat and well-formed stored
    points, [process_video] leaves the points of every other video as
    they are, whatever its response. *)
Theorem process_video_isolated request other w :
  (∀ i j, uuid4 i = uuid4 j → i = j) →
  consistent uuid4 w →
  extract_video_id (VideoRequest.video_url request) ≠ Ok other →
  stored_points (process_video request w).2 other = stored_points w other.
Proof.
  intros Huniq Hw Hother.
  destruct (process_video_cases request w)
    as [[? ->]|[[Hnone (n & ? & ? & _ & ->)]
               |(c & vid & txt & chunks & Hc & Hvid & _ & Hblank
                 & Hchunks & ->)]]; [done|done|].
  assert (vid ≠ other) as Hne by congruence.
  unfold stored_points. simpl. rewrite Hc. simpl.
  apply map_eq. intros key. apply option_eq. intros p.
  rewrite !map_lookup_filter_Some. simpl.
  rewrite upsert_all_lookup by by apply points_from_NoDup.
  rewrite map_lookup_filter_Some. simpl. split.
  - intros [[[Hp _]|[_ [Hold _]]] Hm]; [|done].
    apply points_from_matches in Hp. unfold matches in *. congruence.
  - intros [Hold Hm]. split; [|done]. right. split.
    + rewrite points_from_ids. intros (j & Hkey & Hj)%list_elem_of_fmap.
      apply elem_of_seq in Hj.
      destruct (Hw key p) as (_ & (k & Hk & Hkey') & _); [by rewrite Hc|].
      rewrite Hkey in Hkey'. apply Huniq in Hkey'. lia.
    + split; [done|]. unfold matches in *. congruence.
Qed.

(** X16. [delete_video] leaves the points of every other video as they
    are, draws no identifier and sends no completion request. *)
Theorem delete_video_isolated vid other w :
  other ≠ vid →
  stored_points (delete_video vid w).2 other = stored_points w other
  ∧ uuid_calls (delete_video vid w).2 = uuid_calls w
  ∧ groq_calls (delete_video vid w).2 = groq_calls w.
Proof.
  intros Hne. rewrite delete_video_world.
  destruct (qdrant w) as [c|] eqn:Hc; [|done].
  split; [|done]. unfold stored_points. simpl. rewrite Hc. simpl.
  apply map_eq. intros key. apply option_eq. intros p.
  rewrite !map_lookup_filter_Some. simpl. split; [by intros [[? _] ?]|].
  intros [Hold Hm]. repeat split; try done.
  unfold matches in *. congruence.
Qed.

(** X17. Without a collection (before the startup event), [delete_video]
    answers with status 500 and the message of the client's error, and
    the world stays as it was. *)
Theorem delete_video_without_collection vid w :
  qdrant w = None →
  delete_video vid w
  = (Raise (HTTPException 500
              (lit "Failed to delete video: " ++ exn_str collection_not_found)),
     w).
Proof.
  intros Hnone.
  unfold delete_video, try_except, bind, delete_points, with_collection.
  by rewrite Hnone.
Qed.

(** *** Questions *)

Lemma insert_ranked_elem q (x p : point) l :
  x ∈ insert_ranked closer q p l ↔ x = p ∨ x ∈ l.
Proof.
  induction l as [|y l IH]; simpl.
  - rewrite list_elem_of_singleton, elem_of_nil. tauto.
  - destruct (closer q (vector y) (vector p)).
    + rewrite !elem_of_cons, IH. tauto.
    + by rewrite !elem_of_cons.
Qed.

Lemma ranked_elem q (x : point) l : x ∈ ranked closer q l ↔ x ∈ l.
Proof.
  induction l as [|y l IH]; [done|].
  unfold ranked in *. simpl. by rewrite insert_ranked_elem, IH, elem_of_cons.
Qed.

(** What the filtered query returns is stored for the video. *)
Lemma search_elem c q vid limit p :
  p ∈ search closer c q vid limit →
  ∃ key, filter (λ kp, matches vid kp.2) c !! key = Some p.
Proof.
  unfold search. intros Hp%subseteq_take%ranked_elem.
  apply list_elem_of_filter in Hp as [Hm Hp].
  apply list_elem_of_fmap in Hp as ([key p'] & -> & Hp).
  apply elem_of_map_to_list in Hp. exists key.
  by apply map_lookup_filter_Some.
Qed.

Lemma search_found c q vid limit key p :
  filter (λ kp, matches vid kp.2) c !! key = Some p →
  search closer c q vid (S limit) ≠ [].
Proof.
  intros [Hp Hm]%map_lookup_filter_Some. unfold search.
  assert (p ∈ ranked closer q
                (filter (matches vid) (snd <$> map_to_list c))) as Hin.
  { apply ranked_elem, list_elem_of_filter. split; [done|].
    apply list_elem_of_fmap. exists (key, p). split; [done|].
    by apply elem_of_map_to_list. }
  destruct (ranked _ _ _) as [|y l]; [by apply elem_of_nil in Hin|done].
Qed.

(** X18. A successful [ask_question] returns between one and five chunks,
    each the text of a point stored for the video the reference resolves
    to; exactly one completion request was sent, with the fixed system
    message and a user message that is the fixed template around those
    chunks, joined by blank lines, and the question; the answer is what
    the completion service returned for that request; and the world
    differs only by that request in the log. *)
Theorem ask_question_answer request resp w w' :
  ask_question request w = (Ok resp, w') →
  let prompt :=
    lit "You are a helpful assistant that answers questions about video content."
    ++ nl ++ nl ++ lit "Context from the video transcript:" ++ nl
    ++ join (nl ++ nl) (AnswerResponse.relevant_chunks resp)
    ++ nl ++ nl ++ lit "Question: " ++ QuestionRequest.question request
    ++ nl ++ nl
    ++ lit "Please provide a clear, concise answer based on the context provided. If the context doesn't contain enough information to answer the question, say so." in
  let sent :=
    {| ChatRequest.messages :=
         [ {| ChatMessage.role := lit "system";
              ChatMessage.content :=
                lit "You are a helpful assistant that answers questions about video content based on provided transcripts." |};
           {| ChatMessage.role := lit "user";
              ChatMessage.content := prompt |} ];
       ChatRequest.model := lit "llama-3.3-70b-versatile";
       ChatRequest.temperature_tenths := 3;
       ChatRequest.max_tokens := 1024 |} in
  ∃ vid,
    extract_video_id (QuestionRequest.video_url request) = Ok vid
    ∧ (1 ≤ length (AnswerResponse.relevant_chunks resp) ≤ 5)%nat
    ∧ (∀ t, t ∈ AnswerResponse.relevant_chunks resp →
         ∃ key p, stored_points w vid !! key = Some p
                  ∧ t = Payload.text (payload p))
    ∧ groq_create sent = Ok (AnswerResponse.answer resp)
    ∧ w' = {| qdrant := qdrant w;
              uuid_calls := uuid_calls w;
              groq_calls := groq_calls w ++ [ sent ] |}.
Proof.
  unfold ask_question, http_errors, try_except, bind.
  destruct (extract_video_id _) as [vid|[msg|msg]] eqn:Hvid; simpl;
    try done.
  unfold query_points, with_collection.
  destruct (qdrant w) as [c|] eqn:Hc; simpl;
    [|by destruct collection_not_found].
  set (results := search closer c
                    (embed (QuestionRequest.question request)) vid 5).
  assert (length results ≤ 5)%nat as Hlen
    by (unfold results, search; rewrite length_take; lia).
  assert (∀ r, r ∈ results →
            ∃ key, filter (λ kp, matches vid kp.2) c !! key = Some r)
    as Hstored by (intros r; apply search_elem).
  destruct results as [|r results]; [done|].
  cbv beta iota.
  unfold compose_answer, bind, chat_completion. cbv zeta.
  rewrite build_prompt_text, chat_request_record.
  set (chunks := List.map (λ r, Payload.text (payload r)) (r :: results)).
  destruct (groq_create _) as [answer|[msg|msg]] eqn:Hanswer;
    cbv beta iota; try done.
  intros [= <- <-]. exists vid.
  cbn [AnswerResponse.answer AnswerResponse.relevant_chunks].
  split; [done|].
  split; [unfold chunks; rewrite List.length_map; simpl in Hlen |- *; lia|].
  split; [|split; [exact Hanswer|reflexivity]].
  intros t Ht. unfold stored_points. rewrite Hc. simpl.
  change chunks
    with ((λ r : point, Payload.text (payload r)) <$> (r :: results)) in Ht.
  apply list_elem_of_fmap in Ht as (p & -> & Hp).
  destruct (Hstored p Hp) as [key Hkey]. by exists key, p.
Qed.

(** X19. Whatever its response, [ask_question] leaves the collection and
    the identifier count as they are and sends at most one completion
    request: exactly one when it answers, none when it responds with
    status 404. *)
Theorem ask_question_read_only request w :
  ∃ calls,
    (length calls ≤ 1)%nat
    ∧ (ask_question request w).2
      = {| qdrant := qdrant w;
           uuid_calls := uuid_calls w;
           groq_calls := groq_calls w ++ calls |}
    ∧ (∀ resp, (ask_question request w).1 = Ok resp → length calls = 1%nat)
    ∧ (∀ detail,
         (ask_question request w).1 = Raise (HTTPException 404 detail) →
         calls = []).
Proof. apply ask_question_world. Qed.

(** X20. [process_video] and the startup event never send a completion
    request, and [process_video] never takes an identifier back. *)
Theorem process_video_silent request :
  silent (process_video request)
  ∧ silent startup_event
  ∧ ∀ w, (uuid_calls w ≤ uuid_calls (process_video request w).2)%nat.
Proof.
  assert (∀ w, groq_calls (process_video request w).2 = groq_calls w
               ∧ (uuid_calls w ≤ uuid_calls (process_video request w).2)%nat)
    as Hw.
  { intros w. destruct (process_video_cases request w)
      as [[? ->]|[[Hnone (n & ? & ? & _ & ->)]
                 |(c & vid & txt & chunks & _ & _ & _ & _ & _ & ->)]];
      simpl; split; (done || lia). }
  split; [intros w; apply Hw|]. split; [|intros w; apply Hw].
  intros w.
  unfold startup_event, create_collection_if_not_exists, try_except,
    get_collection, with_collection, create_collection.
  by destruct (qdrant w).
Qed.

(** *** Error responses *)

(** X21. Every failure of an endpoint is an [HTTPException]: with status
    400 or 500 from [process_video], 400, 404 or 500 from
    [ask_question], and 500 from [delete_video]. *)
Theorem error_statuses request question vid :
  raises_only (http_status [ 400; 500 ]) (process_video request)
  ∧ raises_only (http_status [ 400; 404; 500 ]) (ask_question question)
  ∧ raises_only (http_status [ 500 ]) (delete_video vid).
Proof.
  split; [|split].
  - intros w e. destruct (process_video_cases request w)
      as [[? ->]|[[Hnone (n & code & ? & Hcode & ->)]
                 |(c & ? & txt & chunks & _ & _ & _ & _ & _ & ->)]];
      simpl; [|by intros [= <-]|done].
    intros [= <-]. simpl. by left.
  - intros w e. unfold ask_question, http_errors, try_except, bind.
    destruct (extract_video_id _) as [v|[msg|msg]]; simpl;
      try (intros [= <-]; simpl; set_solver).
    unfold query_points, with_collection.
    destruct (qdrant w) as [c|]; simpl.
    2:{ destruct collection_not_found; simpl; intros [= <-]; simpl;
          set_solver. }
    destruct (search _ _ _ _ _) as [|r results]; simpl;
      [intros [= <-]; simpl; set_solver|].
    unfold compose_answer, bind, chat_completion. simpl.
    destruct (groq_create _) as [answer|[msg|msg]]; simpl; [done| |];
      intros [= <-]; simpl; set_solver.
  - intros w e.
    unfold delete_video, try_except, bind, delete_points, with_collection.
    destruct (qdrant w); simpl; [done|]. intros [= <-]. simpl. set_solver.
Qed.

(** *** Requests one after the other *)

Lemma ask_question_not_found request vid w c :
  qdrant w = Some c →
  extract_video_id (QuestionRequest.video_url request) = Ok vid →
  filter (λ kp, matches vid kp.2) c = ∅ →
  ask_question request w
  = (Raise (HTTPException 404
              (lit "No content found for this video. Please process the video first.")),
     w).
Proof.
  intros Hc Hvid Hnone.
  unfold ask_question, http_errors, try_except, bind.
  rewrite Hvid. simpl. unfold query_points.
  rewrite (with_collection_run collection_not_found _ w c Hc). simpl.
  by rewrite (search_none closer), with_qdrant_same.
Qed.

(** X22. After [delete_video] for a video, a question about that video is
    answered with status 404 and leaves the world as it is, in every
    serving world. *)
Theorem delete_then_ask request vid w :
  serving w →
  extract_video_id (QuestionRequest.video_url request) = Ok vid →
  ask_question request (delete_video vid w).2
  = (Raise (HTTPException 404
              (lit "No content found for this video. Please process the video first.")),
     (delete_video vid w).2).
Proof.
  intros [c Hc]%(serving_collection embed closer uuid4 yt_fetch
                   yt_find_fetch groq_create collection_not_found) Hvid.
  rewrite delete_video_world, Hc.
  apply (ask_question_not_found request vid _
           (filter (λ kp, ¬ matches vid kp.2) c)); [done|done|].
  apply map_empty. intros key. apply eq_None_not_Some. intros [p Hp].
  apply map_lookup_filter_Some in Hp as [Hp Hm].
  apply map_lookup_filter_Some in Hp as [_ Hn]. done.
Qed.

(** X23. After a successful [process_video], a question about the same
    video is never answered with 404. The query returns between one and
    five points of that video, each carrying the text of a chunk of the
    transcript; one completion request is sent, with the fixed system
    message and the prompt built from those texts and the question; the
    response is the answer of the completion service together with those
    texts, and a failure of the service becomes status 400 (a
    [ValueError]) or 500. *)
Theorem process_then_ask request question vid txt w :
  (∀ i j, uuid4 i = uuid4 j → i = j) →
  serving w →
  extract_video_id (VideoRequest.video_url request) = Ok vid →
  fetch_transcript vid w = (Ok txt, w) →
  strip_is_empty txt = false →
  let w1 := (process_video request w).2 in
  let ask :=
    ask_question
      {| QuestionRequest.video_url := VideoRequest.video_url request;
         QuestionRequest.question := question |} w1 in
  ∃ chunks (results : list point),
    chunk_text txt default_chunk_size default_overlap = Ok chunks
    ∧ (1 ≤ length results ≤ 5)%nat
    ∧ (∀ r, r ∈ results →
         Payload.video_id (payload r) = vid
         ∧ ∃ ch, ch ∈ chunks ∧ Payload.text (payload r) = text ch)
    ∧ (∀ detail, ask.1 ≠ Raise (HTTPException 404 detail))
    ∧ let texts := List.map (λ r, Payload.text (payload r)) results in
      let prompt :=
        lit "You are a helpful assistant that answers questions about video content."
        ++ nl ++ nl ++ lit "Context from the video transcript:" ++ nl
        ++ join (nl ++ nl) texts
        ++ nl ++ nl ++ lit "Question: " ++ question
        ++ nl ++ nl
        ++ lit "Please provide a clear, concise answer based on the context provided. If the context doesn't contain enough information to answer the question, say so." in
      let sent :=
        {| ChatRequest.messages :=
             [ {| ChatMessage.role := lit "system";
                  ChatMessage.content :=
                    lit "You are a helpful assistant that answers questions about video content based on provided transcripts." |};
               {| ChatMessage.role := lit "user";
                  ChatMessage.content := prompt |} ];
           ChatRequest.model := lit "llama-3.3-70b-versatile";
           ChatRequest.temperature_tenths := 3;
           ChatRequest.max_tokens := 1024 |} in
      ask
      = (match groq_create sent with
         | Ok answer =>
             Ok {| AnswerResponse.answer := answer;
                   AnswerResponse.relevant_chunks := texts |}
         | Raise (ValueError msg) => Raise (HTTPException 400 msg)
         | Raise (OtherException msg) =>
             Raise (HTTPException 500 (lit "Internal error: " ++ msg))
         end,
         {| qdrant := qdrant w1;
            uuid_calls := uuid_calls w1;
            groq_calls := groq_calls w1 ++ [ sent ] |}).
Proof.
  intros Huniq [c Hc]%(serving_collection embed closer uuid4 yt_fetch
                         yt_find_fetch groq_create collection_not_found)
    Hvid Htxt Hblank w1 ask.
  destruct (chunk_text_default _ Hblank) as (chunk & rest & Hchunks).
  unfold ask, w1. clear ask w1.
  rewrite (process_video_run request vid txt _ w c Hc Hvid Htxt Hblank
             Hchunks).
  cbn [snd].
  set (c' := upsert_all
               (points_from uuid4 vid (VideoRequest.video_url request)
                  (uuid_calls w)
                  (enumerate
                     (zip (chunk :: rest)
                        (List.map embed (List.map text (chunk :: rest))))))
               (filter (λ kp : str * point, ¬ matches vid kp.2) c)).
  set (w' := with_qdrant c' _).
  assert (qdrant w' = Some c') as Hc' by done.
  pose proof (λ key p,
    stored_after_process vid (VideoRequest.video_url request)
      (chunk :: rest) (uuid_calls w) c key p Huniq) as Hstored.
  fold c' in Hstored.
  set (results := search closer c' (embed question) vid 5).
  exists (chunk :: rest), results. split; [done|].
  assert (results ≠ []) as Hfound.
  { apply (search_found c' _ vid 4 (uuid4 (uuid_calls w + 0))
             (make_point vid (VideoRequest.video_url request)
                (uuid4 (uuid_calls w + 0)) (Z.of_nat 0) chunk
                (embed (text chunk)))).
    apply Hstored. by exists 0%nat, chunk. }
  assert (ask_question
            {| QuestionRequest.video_url := VideoRequest.video_url request;
               QuestionRequest.question := question |} w'
          = http_errors (compose_answer groq_create question results) w')
    as Hask
    by (by apply (ask_question_answers embed closer groq_create
                    collection_not_found w' c'
                    {| QuestionRequest.video_url :=
                         VideoRequest.video_url request;
                       QuestionRequest.question := question |} vid)).
  assert (http_errors (compose_answer groq_create question results) w'
          = (match
               groq_create
                 (chat_request
                    (build_prompt
                       (join (nl ++ nl)
                          (List.map (λ r, Payload.text (payload r)) results))
                       question))
             with
             | Ok answer =>
                 Ok {| AnswerResponse.answer := answer;
                       AnswerResponse.relevant_chunks :=
                         List.map (λ r, Payload.text (payload r)) results |}
             | Raise (ValueError msg) => Raise (HTTPException 400 msg)
             | Raise (OtherException msg) =>
                 Raise (HTTPException 500 (lit "Internal error: " ++ msg))
             end,
             {| qdrant := qdrant w';
                uuid_calls := uuid_calls w';
                groq_calls :=
                  groq_calls w'
                  ++ [ chat_request
                         (build_prompt
                            (join (nl ++ nl)
                               (List.map (λ r, Payload.text (payload r))
                                  results))
                            question) ] |})) as Hcompose.
  { unfold http_errors, try_except, compose_answer, bind, chat_completion.
    cbv zeta. by destruct (groq_create _) as [answer|[msg|msg]]. }
  rewrite Hask, Hcompose, build_prompt_text, chat_request_record.
  split; [|split; [|split; [|reflexivity]]].
  - split.
    + destruct results; [done|simpl; lia].
    + unfold results, search. rewrite length_take. lia.
  - intros r (key & Hr)%search_elem.
    apply map_lookup_filter_Some in Hr as Hmatch.
    split; [exact (proj2 Hmatch)|].
    apply Hstored in Hr as (k & ch & Hk & _ & ->).
    exists ch. split; [|done]. by eapply list_elem_of_lookup_2.
  - intros detail. cbn [fst].
    by destruct (groq_create _) as [answer|[msg|msg]].
Qed.

End EndpointFacts.

(** ** The further properties on the stub collaborators *)

Lemma stub_uuid4_unique i j : Stub.uuid4 i = Stub.uuid4 j → i = j.
Proof.
  unfold Stub.uuid4. intros Hij. apply app_inv_head in Hij.
  injection Hij as Hij. lia.
Qed.

Lemma stub_started_serving :
  serving Stub.embed Stub.closer Stub.uuid4 Stub.yt_fetch Stub.yt_find_fetch
    Stub.groq_create Stub.collection_not_found Stub.started.
Proof. apply serving_startup. Qed.

Lemma stub_started_consistent : consistent Stub.uuid4 Stub.started.
Proof. intros key p. simpl. by rewrite lookup_empty. Qed.

Lemma invalid_reference_rejected_witness :
  extract_video_id (lit "not a url")
  = Raise (ValueError (lit "Invalid YouTube URL"))
  ∧ process_video Stub.embed Stub.uuid4 Stub.yt_fetch Stub.yt_find_fetch
      Stub.collection_not_found
      {| VideoRequest.video_url := lit "not a url" |} Stub.processed
    = (Raise (HTTPException 400 (lit "Invalid YouTube URL")), Stub.processed)
  ∧ ask_question Stub.embed Stub.closer Stub.groq_create
      Stub.collection_not_found
      {| QuestionRequest.video_url := lit "not a url";
         QuestionRequest.question := lit "why?" |} Stub.processed
    = (Raise (HTTPException 400 (lit "Invalid YouTube URL")), Stub.processed).
Proof.
  split; [reflexivity|].
  apply (invalid_reference_rejected Stub.embed Stub.closer Stub.uuid4
           Stub.yt_fetch Stub.yt_find_fetch Stub.groq_create
           Stub.collection_not_found (lit "not a url") (lit "why?")
           (ValueError (lit "Invalid YouTube URL")) Stub.processed eq_refl).
Defined.

Lemma transcript_unavailable_witness :
  extract_video_id Stub.url = Ok (lit "abc123")
  ∧ Stub.yt_find_fetch (lit "abc123") languages
    = Raise (OtherException (lit "no transcript"))
  ∧ process_video Stub.embed Stub.uuid4 Stub.yt_find_fetch Stub.yt_find_fetch
      Stub.collection_not_found {| VideoRequest.video_url := Stub.url |}
      Stub.processed
    = (Raise (HTTPException 400
                (lit "Failed to fetch transcript: no transcript. Alternative method also failed: no transcript")),
       Stub.processed).
Proof.
  split; [reflexivity|]. split; [reflexivity|].
  apply (transcript_unavailable Stub.embed Stub.uuid4 Stub.yt_find_fetch
           Stub.yt_find_fetch Stub.collection_not_found
           {| VideoRequest.video_url := Stub.url |} (lit "abc123")
           (OtherException (lit "no transcript"))
           (OtherException (lit "no transcript")) Stub.processed
           eq_refl eq_refl eq_refl).
Defined.

Lemma transcript_fallback_witness :
  extract_video_id Stub.url = Ok (lit "abc123")
  ∧ Stub.yt_find_fetch (lit "abc123") languages
    = Raise (OtherException (lit "no transcript"))
  ∧ process_video Stub.embed Stub.uuid4 Stub.yt_find_fetch Stub.yt_fetch
      Stub.collection_not_found {| VideoRequest.video_url := Stub.url |}
      Stub.processed
    = (Raise (HTTPException 400
                (lit "Failed to fetch transcript: no transcript. Alternative method also failed: 'FetchedTranscriptSnippet' object is not subscriptable")),
       Stub.processed).
Proof.
  split; [reflexivity|]. split; [reflexivity|].
  apply (transcript_fallback Stub.embed Stub.uuid4 Stub.yt_find_fetch
           Stub.yt_fetch Stub.collection_not_found
           {| VideoRequest.video_url := Stub.url |} (lit "abc123")
           (OtherException (lit "no transcript")) Stub.processed
           eq_refl eq_refl).
Defined.

Lemma blank_transcript_rejected_witness :
  extract_video_id Stub.url = Ok (lit "abc123")
  ∧ fetch_transcript Stub.yt_blank Stub.yt_find_fetch (lit "abc123")
      Stub.processed
    = (Ok (lit "  "), Stub.processed)
  ∧ strip_is_empty (lit "  ") = true
  ∧ process_video Stub.embed Stub.uuid4 Stub.yt_blank Stub.yt_find_fetch
      Stub.collection_not_found {| VideoRequest.video_url := Stub.url |}
      Stub.processed
    = (Raise (HTTPException 400 (lit "Transcript is empty")), Stub.processed).
Proof.
  split; [reflexivity|]. split; [reflexivity|]. split; [reflexivity|].
  apply (blank_transcript_rejected Stub.embed Stub.uuid4 Stub.yt_blank
           Stub.yt_find_fetch Stub.collection_not_found
           {| VideoRequest.video_url := Stub.url |} (lit "abc123") (lit "  ")
           Stub.processed eq_refl eq_refl eq_refl).
Defined.

Lemma process_video_success_witness :
  let request := {| VideoRequest.video_url := Stub.url |} in
  (∀ i j, Stub.uuid4 i = Stub.uuid4 j → i = j)
  ∧ serving Stub.embed Stub.closer Stub.uuid4 Stub.yt_fetch Stub.yt_find_fetch
      Stub.groq_create Stub.collection_not_found Stub.started
  ∧ extract_video_id Stub.url = Ok (lit "abc123")
  ∧ fetch_transcript Stub.yt_fetch Stub.yt_find_fetch (lit "abc123")
      Stub.started
    = (Ok (lit "the cat sat on the mat"), Stub.started)
  ∧ strip_is_empty (lit "the cat sat on the mat") = false
  ∧ ∃ (chunks : list Chunk) w',
      process_video Stub.embed Stub.uuid4 Stub.yt_fetch Stub.yt_find_fetch
        Stub.collection_not_found request Stub.started
      = (Ok {| ProcessResponse.message := lit "Video processed successfully";
               ProcessResponse.video_id := lit "abc123";
               ProcessResponse.chunks_created :=
                 ceil_div (len (split (lit "the cat sat on the mat"))) 400;
               ProcessResponse.transcript_length :=
                 len (lit "the cat sat on the mat") |}, w')
      ∧ size (stored_points w' (lit "abc123")) = length chunks.
Proof.
  intros request.
  split; [exact stub_uuid4_unique|]. split; [exact stub_started_serving|].
  split; [reflexivity|]. split; [reflexivity|]. split; [reflexivity|].
  destruct (process_video_success Stub.embed Stub.closer Stub.uuid4
              Stub.yt_fetch Stub.yt_find_fetch Stub.groq_create
              Stub.collection_not_found request (lit "abc123")
              (lit "the cat sat on the mat") Stub.started
              stub_uuid4_unique stub_started_serving eq_refl eq_refl eq_refl)
    as (chunks & w' & _ & Hrun & _ & Hsize & _).
  exists chunks, w'. split; [exact Hrun|exact Hsize].
Defined.

Lemma consistent_preserved_witness :
  consistent Stub.uuid4 Stub.started
  ∧ consistent Stub.uuid4
      (handle Stub.embed Stub.closer Stub.uuid4 Stub.yt_fetch
         Stub.yt_find_fetch Stub.groq_create Stub.collection_not_found
         (ProcessVideo {| VideoRequest.video_url := Stub.url |})
         Stub.started).
Proof.
  split; [exact stub_started_consistent|].
  apply (consistent_preserved Stub.embed Stub.closer Stub.uuid4 Stub.yt_fetch
           Stub.yt_find_fetch Stub.groq_create Stub.collection_not_found
           (ProcessVideo {| VideoRequest.video_url := Stub.url |})
           Stub.started stub_started_consistent).
Defined.

Lemma stub_processed_consistent : consistent Stub.uuid4 Stub.processed.
Proof.
  intros key p.
  assert (default ∅ (qdrant Stub.processed)
          = {[ Stub.uuid4 0
               := make_point (lit "abc123") Stub.url (Stub.uuid4 0) 0
                    (mk_chunk "the cat sat on the mat" 0) 22 ]}) as ->
    by (vm_compute; reflexivity).
  intros [<- <-]%lookup_singleton_Some.
  split; [reflexivity|]. split; [|by repeat split].
  exists 0%nat. split; [|reflexivity]. vm_compute. lia.
Qed.

Lemma process_video_isolated_witness :
  let request :=
    {| VideoRequest.video_url := lit "https://youtu.be/xyz789" |} in
  (∀ i j, Stub.uuid4 i = Stub.uuid4 j → i = j)
  ∧ consistent Stub.uuid4 Stub.processed
  ∧ extract_video_id (VideoRequest.video_url request) ≠ Ok (lit "abc123")
  ∧ stored_points
      (process_video Stub.embed Stub.uuid4 Stub.yt_fetch Stub.yt_find_fetch
         Stub.collection_not_found request Stub.processed).2 (lit "abc123")
    = stored_points Stub.processed (lit "abc123").
Proof.
  intros request.
  assert (extract_video_id (VideoRequest.video_url request)
          ≠ Ok (lit "abc123")) as Hother by (vm_compute; discriminate).
  split; [exact stub_uuid4_unique|]. split; [exact stub_processed_consistent|].
  split; [exact Hother|].
  apply (process_video_isolated Stub.embed Stub.uuid4 Stub.yt_fetch
           Stub.yt_find_fetch Stub.collection_not_found request (lit "abc123")
           Stub.processed stub_uuid4_unique stub_processed_consistent Hother).
Defined.

Lemma delete_video_isolated_witness :
  lit "abc123" ≠ lit "xyz789"
  ∧ stored_points
      (delete_video Stub.collection_not_found (lit "xyz789")
         Stub.processed).2 (lit "abc123")
    = stored_points Stub.processed (lit "abc123").
Proof.
  assert (lit "abc123" ≠ lit "xyz789") as Hne by (vm_compute; discriminate).
  split; [exact Hne|].
  apply (delete_video_isolated Stub.collection_not_found (lit "xyz789")
           (lit "abc123") Stub.processed Hne).
Defined.

Lemma delete_video_without_collection_witness :
  qdrant Stub.fresh = None
  ∧ delete_video Stub.collection_not_found (lit "abc123") Stub.fresh
    = (Raise (HTTPException 500
                (lit "Failed to delete video: Collection video_transcripts not found")),
       Stub.fresh).
Proof.
  split; [reflexivity|].
  apply (delete_video_without_collection Stub.collection_not_found
           (lit "abc123") Stub.fresh eq_refl).
Defined.

Lemma ask_question_answer_witness :
  ∃ resp w',
    ask_question Stub.embed Stub.closer Stub.groq_create
      Stub.collection_not_found Stub.question Stub.processed = (Ok resp, w')
    ∧ AnswerResponse.answer resp = lit "The cat sat on the mat."
    ∧ (1 ≤ length (AnswerResponse.relevant_chunks resp) ≤ 5)%nat.
Proof.
  eexists _, _.
  match goal with
  | |- ?run ∧ _ => assert run as Hrun by (vm_compute; reflexivity)
  end.
  split; [exact Hrun|].
  destruct (ask_question_answer Stub.embed Stub.closer Stub.groq_create
              Stub.collection_not_found Stub.question _ Stub.processed _ Hrun)
    as (vid & _ & Hlen & _).
  split; [reflexivity|exact Hlen].
Defined.

Lemma delete_then_ask_witness :
  serving Stub.embed Stub.closer Stub.uuid4 Stub.yt_fetch Stub.yt_find_fetch
    Stub.groq_create Stub.collection_not_found Stub.processed
  ∧ extract_video_id (QuestionRequest.video_url Stub.question)
    = Ok (lit "abc123")
  ∧ ask_question Stub.embed Stub.closer Stub.groq_create
      Stub.collection_not_found Stub.question
      (delete_video Stub.collection_not_found (lit "abc123")
         Stub.processed).2
    = (Raise (HTTPException 404
                (lit "No content found for this video. Please process the video first.")),
       (delete_video Stub.collection_not_found (lit "abc123")
          Stub.processed).2).
Proof.
  split; [exact processed_serving|]. split; [reflexivity|].
  apply (delete_then_ask Stub.embed Stub.closer Stub.uuid4 Stub.yt_fetch
           Stub.yt_find_fetch Stub.groq_create Stub.collection_not_found
           Stub.question (lit "abc123") Stub.processed processed_serving
           eq_refl).
Defined.

Lemma process_then_ask_witness :
  let request := {| VideoRequest.video_url := Stub.url |} in
  (∀ i j, Stub.uuid4 i = Stub.uuid4 j → i = j)
  ∧ serving Stub.embed Stub.closer Stub.uuid4 Stub.yt_fetch Stub.yt_find_fetch
      Stub.groq_create Stub.collection_not_found Stub.started
  ∧ extract_video_id Stub.url = Ok (lit "abc123")
  ∧ fetch_transcript Stub.yt_fetch Stub.yt_find_fetch (lit "abc123")
      Stub.started
    = (Ok (lit "the cat sat on the mat"), Stub.started)
  ∧ strip_is_empty (lit "the cat sat on the mat") = false
  ∧ (∀ detail,
       (ask_question Stub.embed Stub.closer Stub.groq_create
          Stub.collection_not_found
          {| QuestionRequest.video_url := Stub.url;
             QuestionRequest.question := lit "what sat on the mat?" |}
          (process_video Stub.embed Stub.uuid4 Stub.yt_fetch
             Stub.yt_find_fetch Stub.collection_not_found request
             Stub.started).2).1
       ≠ Raise (HTTPException 404 detail))
  ∧ ∃ (results : list (@PointStruct Z)),
      (1 ≤ length results ≤ 5)%nat
      ∧ ∀ r, r ∈ results → Payload.video_id (payload r) = lit "abc123".
Proof.
  intros request.
  split; [exact stub_uuid4_unique|]. split; [exact stub_started_serving|].
  split; [reflexivity|]. split; [reflexivity|]. split; [reflexivity|].
  destruct (process_then_ask Stub.embed Stub.closer Stub.uuid4
              Stub.yt_fetch Stub.yt_find_fetch Stub.groq_create
              Stub.collection_not_found request (lit "what sat on the mat?")
              (lit "abc123") (lit "the cat sat on the mat") Stub.started
              stub_uuid4_unique stub_started_serving eq_refl eq_refl eq_refl)
    as (chunks & results & _ & Hlen & Hres & Hnot & _).
  split; [exact Hnot|].
  exists results. split; [exact Hlen|].
  intros r Hr. exact (proj1 (Hres r Hr)).
Defined.
